(** * CORDIC lookup-table generator: [scripts/lookup_gen.py]

    A shallow embedding of the script and the properties of its table
    generator ([generate_cordic_lut]), its fixed-point encoder
    ([format_qmn]) and its emitter ([main]).

    Python [int] is [Z]; Python [float] is an IEEE-754 binary64 value, taken
    from the Standard Library's executable specification [SpecFloat]
    ([prec = 53], [emax = 1024]); a raised exception is the [Raise] branch of
    [result]. Memory is not modelled: a list has any length, so the theorems
    speak of the runs that fit in memory, and [MemoryError] is no outcome of
    the model. *)

From Stdlib Require Import ZArith List Bool Lia String Ascii.
From Stdlib Require Import QArith Qround Qabs Qpower Lqa.
From Stdlib Require Import SpecFloat DecimalString.
Import ListNotations.

Open Scope Z_scope.

(** ** Exceptions and the error monad *)

Inductive exn : Type :=
| OverflowError
| ValueError
| ZeroDivisionError
| TypeError
| FileNotFoundError
| UnboundLocalError
| SystemExit (msg : string).

Inductive result (A : Type) : Type :=
| Ok (a : A)
| Raise (e : exn).

Arguments Ok {A} a.
Arguments Raise {A} e.

Definition bind {A B : Type} (c : result A) (k : A -> result B) : result B :=
  match c with
  | Ok a => k a
  | Raise e => Raise e
  end.

Declare Scope py_scope.
Delimit Scope py_scope with py.
Notation "x <- c ;; k" := (bind c (fun x => k))
  (at level 61, c at next level, right associativity) : py_scope.
Open Scope py_scope.

(** An exception that reaches the top level ends the interpreter with status
    1; [sys.exit(msg)] with a string prints the string and exits with 1. *)
Definition exit_status {A : Type} (r : result A) : Z :=
  match r with
  | Ok _ => 0
  | Raise _ => 1
  end.

(** What the interpreter writes to its error stream for [SystemExit]. *)
Definition exit_message {A : Type} (r : result A) : option string :=
  match r with
  | Raise (SystemExit msg) => Some msg
  | _ => None
  end.

(** ** Python integers *)

(** [a << b]: a negative shift count raises [ValueError]. *)
Definition py_lshift (a b : Z) : result Z :=
  if b <? 0 then Raise ValueError else Ok (Z.shiftl a b).

(** [str(z)] and [{z}] inside an f-string. *)
Definition str_int (z : Z) : string := NilZero.string_of_int (Z.to_int z).

(** ** Python floats: IEEE-754 binary64 *)

Definition prec : Z := 53.
Definition emax : Z := 1024.

Definition float : Type := spec_float.

Definition fmul : float -> float -> float := SFmul prec emax.
Definition fadd : float -> float -> float := SFadd prec emax.

Definition is_finite (x : float) : bool :=
  match x with
  | S754_zero _ | S754_finite _ _ _ => true
  | _ => false
  end.

Definition is_zero (x : float) : bool :=
  match x with
  | S754_zero _ => true
  | _ => false
  end.

(** The literals of the script. *)
Definition f_one : float := S754_finite false 4503599627370496 (-52).
Definition f_minus_two : float := S754_finite true 4503599627370496 (-51).

(** Conversion of an [int] operand of a float operation ([PyLong_AsDouble]):
    correctly rounded, [OverflowError] when the rounded value leaves the
    double range. *)
Definition float_of_int (z : Z) : result float :=
  match binary_normalize prec emax z 0 false with
  | S754_infinity _ => Raise OverflowError
  | f => Ok f
  end.

(** [x * z] with a float [x] and an int [z]. *)
Definition fmul_int (x : float) (z : Z) : result float :=
  y <- float_of_int z ;; Ok (fmul x y).

(** [x / y] on floats: a zero divisor raises. *)
Definition fdiv (x y : float) : result float :=
  if is_zero y then Raise ZeroDivisionError else Ok (SFdiv prec emax x y).

(** [math.sqrt]: a negative argument (and minus infinity) raises
    [ValueError]; the square root itself is correctly rounded. *)
Definition math_sqrt (x : float) : result float :=
  match x with
  | S754_finite true _ _ | S754_infinity true => Raise ValueError
  | _ => Ok (SFsqrt prec emax x)
  end.

(** The integer a finite float stands for, when it stands for one. *)
Definition integral_value (x : float) : option Z :=
  match x with
  | S754_zero _ => Some 0
  | S754_finite s m e =>
      if 0 <=? e then Some (cond_Zopp s (Zpos m * 2 ^ e))
      else if Zpos m mod 2 ^ (- e) =? 0
           then Some (cond_Zopp s (Zpos m / 2 ^ (- e)))
           else None
  | _ => None
  end.

(** The double nearest to [2 ^ k]: zero below the smallest subnormal
    (the midpoint [2 ^ -1075] included, ties going to the even mantissa 0),
    a subnormal down to [2 ^ -1074], a normal number up to [2 ^ 1023], and
    infinity from [2 ^ 1024] on. *)
Definition exp2 (k : Z) : float :=
  if 1024 <=? k then S754_infinity false
  else if k <? -1074 then S754_zero false
  else if k <? -1022 then S754_finite false (Z.to_pos (2 ^ (k + 1074))) (-1074)
  else S754_finite false 4503599627370496 (k - 52).

(** Round half to even of the fraction [num / den]. *)
Definition round_half_even_frac (num : Z) (den : positive) : Z :=
  let q := num / Zpos den in
  let r := num mod Zpos den in
  match 2 * r ?= Zpos den with
  | Lt => q
  | Gt => q + 1
  | Eq => if Z.even q then q else q + 1
  end.

(** [round(x)] on a float, one argument: the nearest integer, a tie going to
    the even one; [OverflowError] on an infinity and [ValueError] on a NaN
    ([PyLong_FromDouble]). The result is an [int], which [int(...)] returns
    unchanged. *)
Definition py_round (x : float) : result Z :=
  match x with
  | S754_nan => Raise ValueError
  | S754_infinity _ => Raise OverflowError
  | S754_zero _ => Ok 0
  | S754_finite s m e =>
      Ok (cond_Zopp s
            (if 0 <=? e then Zpos m * 2 ^ e
             else round_half_even_frac (Zpos m) (Z.to_pos (2 ^ (- e)))))
  end.

(** The exact rational value of a finite float. *)
Definition F2Q (x : float) : Q :=
  match x with
  | S754_finite s m e => (inject_Z (cond_Zopp s (Zpos m)) * Qpower 2 e)%Q
  | _ => 0%Q
  end.

(** ** Text *)

Definition nl : string := String (ascii_of_nat 10) EmptyString.

Fixpoint repeat_char (c : ascii) (k : nat) : string :=
  match k with
  | O => EmptyString
  | S k' => String c (repeat_char c k')
  end.

(** Right-justify [s] in a field of [width] characters filled with [c]. *)
Definition pad_left (width : nat) (c : ascii) (s : string) : string :=
  (repeat_char c (width - String.length s) ++ s)%string.

(** [{i:2d}] *)
Definition format_2d (i : Z) : string := pad_left 2 " "%char (str_int i).

Definition hex_digit (d : Z) : ascii :=
  nth (Z.to_nat d) (list_ascii_of_string "0123456789ABCDEF") "?"%char.

(** Number of hexadecimal digits of a non-negative integer. *)
Definition hex_len (z : Z) : nat :=
  if z =? 0 then 1%nat else Z.to_nat (Z.log2 z / 4 + 1).

(** Upper-case hexadecimal digits of a non-negative integer, most
    significant first. *)
Definition upper_hex (z : Z) : string :=
  string_of_list_ascii
    (map (fun i => hex_digit ((z / 16 ^ Z.of_nat i) mod 16))
         (rev (seq 0 (hex_len z)))).

(** [{z:08X}]: upper-case hexadecimal, zero-filled to eight characters, the
    sign of a negative number counted in the field and put first. *)
Definition format_08X (z : Z) : string :=
  if z <? 0 then ("-" ++ pad_left 7 "0"%char (upper_hex (- z)))%string
  else pad_left 8 "0"%char (upper_hex z).

(** [{x:.12f}]: the decimal expansion with twelve fractional digits nearest
    to the exact value of the double. *)
Definition format_12f (x : float) : string :=
  let digits (q : Z) :=
    (str_int (q / 10 ^ 12) ++ "." ++
     pad_left 12 "0"%char (str_int (q mod 10 ^ 12)))%string in
  match x with
  | S754_nan => "nan"%string
  | S754_infinity s => if s then "-inf"%string else "inf"%string
  | S754_zero s => ((if s then "-" else "") ++ digits 0%Z)%string
  | S754_finite s m e =>
      ((if s then "-" else "") ++
       digits (if 0 <=? e then Zpos m * 2 ^ e * 10 ^ 12
               else round_half_even_frac (Zpos m * 10 ^ 12)
                      (Z.to_pos (2 ^ (- e))))%Z)%string
  end.

(** [s[2:]] *)
Definition drop2 (s : string) : string :=
  match s with
  | String _ (String _ rest) => rest
  | _ => EmptyString
  end.

(** [needle in hay] *)
Fixpoint is_infix (needle hay : string) : bool :=
  prefix needle hay ||
  match hay with
  | EmptyString => false
  | String _ rest => is_infix needle rest
  end.

(** [enumerate(l)] *)
Definition enumerate {A : Type} (l : list A) : list (Z * A) :=
  combine (map Z.of_nat (seq 0 (List.length l))) l.

(** ** The table generator and the encoder *)

Section Platform.

(** [math.atan], which Python takes from the platform's C library. *)
Variable math_atan : float -> float.

(** C [pow(2.0, x)] at a finite [x] that is not an integer. The script
    raises 2.0 to integral powers only (see [pow_two_neg_index]). *)
Variable pow_two_frac : float -> float.

(** [2.0 ** x] ([float_pow]): the special cases of the exponent first,
    then the C library, whose overflow is raised as [OverflowError] and
    whose underflow to zero is let through. A power of two with an
    integral exponent is computed exactly where it is representable. *)
Definition pow_two (x : float) : result float :=
  match x with
  | S754_nan => Ok S754_nan
  | S754_zero _ => Ok f_one
  | S754_infinity false => Ok (S754_infinity false)
  | S754_infinity true => Ok (S754_zero false)
  | S754_finite _ _ _ =>
      let r := match integral_value x with
               | Some k => exp2 k
               | None => pow_two_frac x
               end in
      match r with
      | S754_infinity _ => Raise OverflowError
      | _ => Ok r
      end
  end.

(** [2.0 ** z] with an int exponent. *)
Definition pow_two_int (z : Z) : result float :=
  x <- float_of_int z ;; pow_two x.

(** One turn of the loop of [generate_cordic_lut], at index [i]. *)
Definition lut_step (i : Z) (st : list float * float)
  : result (list float * float) :=
  let '(angles, K) := st in
  p <- pow_two_int (- i) ;;
  let angle := math_atan p in
  let angles := angles ++ [angle] in
  e <- fmul_int f_minus_two i ;;
  q <- pow_two e ;;
  r <- math_sqrt (fadd f_one q) ;;
  d <- fdiv f_one r ;;
  Ok (angles, fmul K d).

(** [for i in range(lo, lo + cnt)] *)
Fixpoint lut_loop (cnt : nat) (i : Z) (st : list float * float)
  : result (list float * float) :=
  match cnt with
  | O => Ok st
  | S cnt' => st' <- lut_step i st ;; lut_loop cnt' (i + 1) st'
  end.

Definition generate_cordic_lut (n_iter : Z) : result (list float * float) :=
  lut_loop (Z.to_nat n_iter) 0 ([], f_one).

End Platform.

(** The message of the [sys.exit] call of [format_qmn]. *)
Definition bits_message (m n total_bits : Z) : string :=
  ("Error: 1 (sign) + m (" ++ str_int m ++ ") + n (" ++ str_int n ++ ") = "
   ++ str_int total_bits ++ " bits exceeds 32.")%string.

(** The body of the loop of [format_qmn] up to the word. *)
Definition encode_word (n max_int half_range mask shift_left : Z)
  (angle : float) : result Z :=
  p <- py_lshift 1 n ;;
  x <- fmul_int angle p ;;
  scaled <- py_round x ;;
  let scaled := if scaled >? max_int then max_int else scaled in
  let scaled := if scaled <? - half_range then - half_range else scaled in
  let twos := Z.land scaled mask in
  Ok (Z.shiftl twos shift_left).

(** [for angle in angles], appending to [result]. *)
Fixpoint qmn_loop (n max_int half_range mask shift_left : Z)
  (angles : list float) (acc : list string) : result (list string) :=
  match angles with
  | [] => Ok acc
  | angle :: rest =>
      word <- encode_word n max_int half_range mask shift_left angle ;;
      qmn_loop n max_int half_range mask shift_left rest
        (acc ++ [("0x" ++ format_08X word)%string])
  end.

Definition format_qmn (angles : list float) (m n : Z) : result (list string) :=
  let total_bits := 1 + m + n in
  if total_bits >? 32 then Raise (SystemExit (bits_message m n total_bits))
  else
    let shift_left := 32 - total_bits in
    a <- py_lshift 1 (m + n) ;;
    let max_int := a - 1 in
    half_range <- py_lshift 1 (m + n) ;;
    b <- py_lshift 1 total_bits ;;
    let mask := b - 1 in
    qmn_loop n max_int half_range mask shift_left angles [].

(** ** The emitter: [main] *)

(** The parsed command line ([argparse]): [--m] and [--n] are [None] when
    they are not given. *)
Record args : Type := {
  niter : Z;
  arg_m : option Z;
  arg_n : option Z;
  genverilog : bool
}.

(** What a run can change: the text on standard output and the file
    [rtl/lookup.v] ([None] while it does not exist). [rtl_dir] tells whether
    the directory [rtl] exists, which [open] needs. *)
Record world : Type := {
  stdout : string;
  rtl_dir : bool;
  lookup_v : option string
}.

(** Statements of [main]: a state transformer that may raise. *)
Definition io (A : Type) : Type := world -> world * result A.

Definition io_ret {A : Type} (a : A) : io A := fun w => (w, Ok a).

Definition io_bind {A B : Type} (c : io A) (k : A -> io B) : io B :=
  fun w => match c w with
           | (w', Ok a) => k a w'
           | (w', Raise e) => (w', Raise e)
           end.

Definition io_lift {A : Type} (r : result A) : io A := fun w => (w, r).

Declare Scope io_scope.
Delimit Scope io_scope with io.
Notation "x <~ c ;; k" := (io_bind c (fun x => k))
  (at level 61, c at next level, right associativity) : io_scope.
Notation "c ;;; k" := (io_bind c (fun _ => k))
  (at level 61, right associativity) : io_scope.

(** [print(s)] *)
Definition print (s : string) : io unit :=
  fun w => ({| stdout := (stdout w ++ s ++ nl)%string;
               rtl_dir := rtl_dir w;
               lookup_v := lookup_v w |}, Ok tt).

(** [open("rtl/lookup.v", "w")]: creates the file or empties it. *)
Definition open_w : io unit :=
  fun w => if rtl_dir w
           then ({| stdout := stdout w; rtl_dir := true;
                    lookup_v := Some EmptyString |}, Ok tt)
           else (w, Raise FileNotFoundError).

(** [f.write(s)] on the file opened by [open_w]. *)
Definition write (s : string) : io unit :=
  fun w => ({| stdout := stdout w;
               rtl_dir := rtl_dir w;
               lookup_v := match lookup_v w with
                           | Some text => Some (text ++ s)%string
                           | None => Some s
                           end |}, Ok tt).

(** [for x in l: body(x)] *)
Fixpoint io_for {A : Type} (l : list A) (body : A -> io unit) : io unit :=
  match l with
  | [] => io_ret tt
  | x :: rest => io_bind (body x) (fun _ => io_for rest body)
  end.

(** [a + b] where [b] may be [None]. *)
Definition add_arg (a : Z) (b : option Z) : result Z :=
  match b with
  | Some b => Ok (a + b)
  | None => Raise TypeError
  end.

(** The text before the table: its two interpolations are the values of
    [1+args.m+args.n] and [args.niter]. *)
Definition verilog_head (N I : Z) : string :=
  ("////////////////////////////////////////////////////////////////////////////////" ++ nl ++
   "// Author: Sudeep Joshi" ++ nl ++
   "// Description: Arctan Look-Up table for CORDIC Unit" ++ nl ++
   "////////////////////////////////////////////////////////////////////////////////" ++ nl ++
   "`default_nettype none" ++ nl ++ nl ++
   "module arctan_lookup #(" ++ nl ++
   "    parameter N = " ++ str_int N ++ "," ++ nl ++
   "    parameter I = " ++ str_int I ++ nl ++
   ") (" ++ nl ++
   "    input  wire                 clk," ++ nl ++
   "    input  wire                 rst_n," ++ nl ++
   "    input  wire [$clog2(I)-1:0] j," ++ nl ++
   "    output reg  [N-1:0]         arctan" ++ nl ++
   ");" ++ nl ++ nl ++
   "    reg [N-1:0] lookup_table[0:I];" ++ nl ++ nl ++
   "    /*** Python Generated Block ***/" ++ nl ++
   "    always @(posedge clk) begin" ++ nl ++
   "       if(~rst_n) begin" ++ nl)%string.

(** One line of the table. *)
Definition verilog_line (ih : Z * string) : string :=
  ("        lookup_table[" ++ str_int (fst ih) ++ "] <= 32'h"
   ++ drop2 (snd ih) ++ ";" ++ nl)%string.

(** The text after the table. *)
Definition verilog_tail : string :=
  ("    end" ++ nl ++ nl ++
   "    end" ++ nl ++ nl ++
   "    always @(posedge clk) begin" ++ nl ++
   "        arctan <= lookup_table[j];" ++ nl ++
   "    end " ++ nl ++ nl ++
   "endmodule" ++ nl)%string.

Section Emitter.

Variable math_atan : float -> float.
Variable pow_two_frac : float -> float.

Open Scope io_scope.

(** The branch [if args.genverilog:]. [hex_values] is [None] while the
    name is unbound, which is the case when [--m] or [--n] is missing. *)
Definition emit_verilog (a : args) (hex_values : option (list string))
  : io unit :=
  print (nl ++ "# Generating Verilog file for the lookup table") ;;;
  open_w ;;;
  t <~ io_lift (add_arg 1 (arg_m a)) ;;
  N <~ io_lift (add_arg t (arg_n a)) ;;
  write (verilog_head N (niter a)) ;;;
  hs <~ io_lift (match hex_values with
                 | Some hs => Ok hs
                 | None => Raise UnboundLocalError
                 end) ;;
  io_for (enumerate hs) (fun ih => write (verilog_line ih)) ;;;
  write verilog_tail.

Definition main (a : args) : io unit :=
  lut <~ io_lift (generate_cordic_lut math_atan pow_two_frac (niter a)) ;;
  let '(angles, K) := lut in
  print "# CORDIC Arctan LUT" ;;;
  hex_values <~
    match arg_m a, arg_n a with
    | Some m, Some n =>
        hs <~ io_lift (format_qmn angles m n) ;;
        io_for (enumerate hs)
          (fun ih => print ("iter " ++ format_2d (fst ih) ++ ": " ++ snd ih)) ;;;
        io_ret (Some hs)
    | _, _ =>
        io_for (enumerate angles)
          (fun ia => print ("iter " ++ format_2d (fst ia) ++ ": atan(2^-"
                            ++ str_int (fst ia) ++ ") = "
                            ++ format_12f (snd ia) ++ " rad")) ;;;
        io_ret None
    end ;;
  print (nl ++ "# CORDIC Gain K = " ++ format_12f K) ;;;
  if genverilog a then emit_verilog a hex_values else io_ret tt.

End Emitter.

(** ** A sample platform for running the model *)

(** The double nearest to pi/4 (it lies below pi/4). *)
Definition pi_over_4 : float := S754_finite false 7074237752028440 (-53).

(** A stand-in for [math.atan]: the doubles CPython computes at the first
    four table arguments, and [x] elsewhere (the arctangent of a small [x]
    rounds to [x]). *)
Definition atan_sample (x : float) : float :=
  match x with
  | S754_finite false 4503599627370496 (-52) => pi_over_4
  | S754_finite false 4503599627370496 (-53) =>
      S754_finite false 8352332796509007 (-54)
  | S754_finite false 4503599627370496 (-54) =>
      S754_finite false 8826286527774941 (-55)
  | S754_finite false 4503599627370496 (-55) =>
      S754_finite false 8960721713639278 (-56)
  | _ => x
  end.

(** A stand-in for the C library's [pow(2.0, x)] at a fractional [x]. *)
Definition pow_frac_sample (x : float) : float := S754_nan.

Definition sample_args (N : Z) (m n : option Z) (v : bool) : args :=
  {| niter := N; arg_m := m; arg_n := n; genverilog := v |}.

Definition fresh_world : world :=
  {| stdout := EmptyString; rtl_dir := true; lookup_v := None |}.

(** ** Notions used by the statements *)

(** A well-formed double: the mantissa and exponent of a finite value are
    the canonical ones. *)
Definition double (x : float) : Prop := valid_binary prec emax x = true.

(** Round half to even on the rationals, from the floor. *)
Definition round_half_even (q : Q) : Z :=
  let f := Qfloor q in
  match (q - inject_Z f ?= 1 # 2)%Q with
  | Lt => f
  | Eq => if Z.even f then f else f + 1
  | Gt => f + 1
  end.

(** A double whose product with [2 ^ n] stays in the double range: it is
    finite and its magnitude, below [2 ^ (digits + e)], times [2 ^ n] is
    below [2 ^ 1024]. *)
Definition scalable (n : Z) (a : float) : bool :=
  match a with
  | S754_zero _ => true
  | S754_finite _ m e => Zpos (digits2_pos m) + e + n <=? 1024
  | _ => false
  end.

(** The double [2 ^ n] for [0 <= n <= 52]. *)
Definition f_pow2 (n : Z) : float := S754_finite false 4503599627370496 (n - 52).

(** [mapM] of the error monad. *)
Fixpoint mapM {A B : Type} (f : A -> result B) (l : list A) : result (list B) :=
  match l with
  | [] => Ok []
  | a :: rest => b <- f a ;; bs <- mapM f rest ;; Ok (b :: bs)
  end.

(** The serialization of a word: [f"0x{word:08X}"]. *)
Definition hex_word (word : Z) : string := ("0x" ++ format_08X word)%string.

(** The word of one angle as the specification computes it, on the exact
    value of the angle: round half to even, saturate, mask to
    [1 + m + n] bits, left-justify in 32 bits. *)
Definition spec_word (m n : Z) (angle : Q) : Z :=
  let total_bits := 1 + m + n in
  let scaled := round_half_even (angle * inject_Z (2 ^ n)) in
  let max_pos := 2 ^ (m + n) - 1 in
  let min_neg := - 2 ^ (m + n) in
  let clamped := Z.max min_neg (Z.min max_pos scaled) in
  let twos := Z.land clamped (Z.shiftl 1 total_bits - 1) in
  Z.shiftl twos (32 - total_bits).

(** The integers [lo, lo + 1, ..., lo + cnt - 1]. *)
Definition Z_range (lo : Z) (cnt : nat) : list Z :=
  map (fun k => lo + Z.of_nat k) (seq 0 cnt).

Definition float_beq (x y : float) : bool :=
  match x, y with
  | S754_zero a, S754_zero b => Bool.eqb a b
  | S754_infinity a, S754_infinity b => Bool.eqb a b
  | S754_nan, S754_nan => true
  | S754_finite a m e, S754_finite b m' e' =>
      Bool.eqb a b && Pos.eqb m m' && Z.eqb e e'
  | _, _ => false
  end.

(** The saturating clamp of a scaled value to [1 + m + n] signed bits. *)
Definition saturate (m n scaled : Z) : Z :=
  Z.max (- 2 ^ (m + n)) (Z.min (2 ^ (m + n) - 1) scaled).

(** Two's complement in [1 + m + n] bits, left-justified in 32 bits. *)
Definition justify (m n c : Z) : Z :=
  Z.shiftl (Z.land c (Z.shiftl 1 (1 + m + n) - 1)) (32 - (1 + m + n)).

(** The decoder of the round-trip property, in the words of the
    specification (the script only encodes): the 32-bit word is read as a
    signed number, shifted right arithmetically by [32 - (1 + m + n)] and
    divided by [2 ^ n]. *)
Definition decode (m n word : Z) : Q :=
  let signed := if 2 ^ 31 <=? word then word - 2 ^ 32 else word in
  (inject_Z (Z.shiftr signed (32 - (1 + m + n))) / inject_Z (2 ^ n))%Q.

Definition is_upper_hex (c : ascii) : bool :=
  existsb (Ascii.eqb c) (list_ascii_of_string "0123456789ABCDEF").

(** Every character of [s] satisfies [P]. *)
Fixpoint string_all (P : ascii -> bool) (s : string) : bool :=
  match s with
  | EmptyString => true
  | String c rest => P c && string_all P rest
  end.

(** The whole text that [main] writes to [rtl/lookup.v]. *)
Definition verilog_text (N I : Z) (hex_values : list string) : string :=
  (verilog_head N I
   ++ String.concat "" (map verilog_line (enumerate hex_values))
   ++ verilog_tail)%string.

(** The factor of the gain for the exponent [k = -2i], on doubles:
    [1.0 / math.sqrt(1.0 + 2^k)]. *)
Definition gain_factor (k : Z) : float :=
  SFdiv prec emax f_one (SFsqrt prec emax (fadd f_one (exp2 k))).

(** The least positive integer that Python does not convert to a double:
    [2^1024 - 2^970], half an ulp above the largest double. *)
Definition int_overflow : Z := 2 ^ 1024 - 2 ^ 970.

(** The table and the gain in closed form, on doubles: [atan(2^-i)] for
    [i = 0 .. n_iter - 1], and the product of the factors taken from the
    left, starting at 1.0. *)
Definition angle_table (math_atan : float -> float) (n_iter : Z) : list float :=
  map (fun i => math_atan (exp2 (- i))) (Z_range 0 (Z.to_nat n_iter)).

Definition gain (n_iter : Z) : float :=
  fold_left (fun K i => fmul K (gain_factor (- 2 * i)))
    (Z_range 0 (Z.to_nat n_iter)) f_one.

(** [l] is strictly decreasing: a later entry is less than an earlier one,
    in the order of doubles. *)
Definition strictly_decreasing (l : list float) : Prop :=
  forall i j a b, (i < j)%nat ->
    nth_error l i = Some a -> nth_error l j = Some b ->
    SFltb b a = true.

(** ** Notions used by the further properties *)

(** The exception that ends the loop of [format_qmn] at an angle whose
    product with [2 ^ n] is not a finite double: [round] raises
    [ValueError] on a NaN and [OverflowError] on an infinity. *)
Definition round_error (a : float) : exn :=
  match a with
  | S754_nan => ValueError
  | _ => OverflowError
  end.

(** The gain from the 26th turn on: 0.6072529350088814. *)
Definition gain_limit : float := S754_finite false 5469648183651277 (-53).

(** What [print] leaves on the output for a list of lines. *)
Fixpoint printed (lines : list string) : string :=
  match lines with
  | [] => EmptyString
  | l :: rest => (l ++ nl ++ printed rest)%string
  end.

(** The line of the report for one word, and for one angle in radians. *)
Definition hex_line (ih : Z * string) : string :=
  ("iter " ++ format_2d (fst ih) ++ ": " ++ snd ih)%string.

Definition rad_line (ia : Z * float) : string :=
  ("iter " ++ format_2d (fst ia) ++ ": atan(2^-" ++ str_int (fst ia) ++ ") = "
   ++ format_12f (snd ia) ++ " rad")%string.

(** The report of [main]: the heading, the lines of the table, an empty
    line and the gain. *)
Definition report_text (lines : list string) (K : float) : string :=
  ("# CORDIC Arctan LUT" ++ nl ++ printed lines
   ++ nl ++ "# CORDIC Gain K = " ++ format_12f K ++ nl)%string.

(** The line that announces the Verilog file. *)
Definition verilog_notice : string :=
  (nl ++ "# Generating Verilog file for the lookup table" ++ nl)%string.

(** The lines of the table in the report of [main]: the words of the
    encoder when both [--m] and [--n] are given, the angles in radians
    otherwise. *)
Definition table_lines (a : args) (angles : list float) : result (list string) :=
  match arg_m a, arg_n a with
  | Some m, Some n =>
      hs <- format_qmn angles m n ;; Ok (map hex_line (enumerate hs))
  | _, _ => Ok (map rad_line (enumerate angles))
  end.

(** * Properties *)

(** ** Binary64 lemmas *)

Lemma iter_pos_nat {A : Type} (f : A -> A) (p : positive) (x : A) :
  iter_pos f p x = Nat.iter (Pos.to_nat p) f x.
Proof.
  revert x. induction p as [p IH | p IH | ]; intro x; cbn [iter_pos].
  - rewrite !IH, Pos2Nat.inj_xI.
    replace (S (2 * Pos.to_nat p))%nat with (Pos.to_nat p + (Pos.to_nat p + 1))%nat by lia.
    rewrite !Nat.iter_add. reflexivity.
  - rewrite !IH, Pos2Nat.inj_xO.
    replace (2 * Pos.to_nat p)%nat with (Pos.to_nat p + Pos.to_nat p)%nat by lia.
    rewrite Nat.iter_add. reflexivity.
  - reflexivity.
Qed.

Lemma digits2_log2 (p : positive) : Zpos (digits2_pos p) = Z.log2 (Zpos p) + 1.
Proof.
  induction p as [p IH | p IH | ]; cbn [digits2_pos]; try reflexivity.
  - rewrite Pos2Z.inj_succ, IH. 
    change (Zpos p~1) with (2 * Zpos p + 1). rewrite Z.log2_succ_double by lia. lia.
  - rewrite Pos2Z.inj_succ, IH. 
    change (Zpos p~0) with (2 * Zpos p). rewrite Z.log2_double by lia. lia.
Qed.

Lemma digits2_bounds (p : positive) :
  2 ^ (Zpos (digits2_pos p) - 1) <= Zpos p < 2 ^ Zpos (digits2_pos p).
Proof.
  rewrite digits2_log2.
  replace (Z.log2 (Zpos p) + 1 - 1) with (Z.log2 (Zpos p)) by lia.
  replace (Z.log2 (Zpos p) + 1) with (Z.succ (Z.log2 (Zpos p))) by lia.
  apply Z.log2_spec. lia.
Qed.

Lemma digits2_unique (p : positive) (d : Z) :
  2 ^ (d - 1) <= Zpos p < 2 ^ d -> Zpos (digits2_pos p) = d.
Proof.
  intros [Hlo Hhi]. rewrite digits2_log2.
  assert (0 < d). { destruct (Z.lt_ge_cases 0 d); auto. rewrite Z.pow_neg_r in Hlo by lia.
    assert (2 ^ d <= 2 ^ 0) by (apply Z.pow_le_mono_r; lia). simpl in *. lia. }
  assert (Z.log2 (Zpos p) = d - 1); [| lia].
  apply Z.log2_unique; [lia|]. replace (Z.succ (d - 1)) with d by lia. lia.
Qed.

Lemma digits2_mul_pow2 (p : positive) (j : Z) :
  0 <= j -> Zdigits2 (Zpos p * 2 ^ j) = Zpos (digits2_pos p) + j.
Proof.
  intro Hj. 
  assert (Hpos : 0 < Zpos p * 2 ^ j) by (apply Z.mul_pos_pos; [lia | apply Z.pow_pos_nonneg; lia]).
  destruct (Zpos p * 2 ^ j) as [| q | q] eqn:E; try lia.
  cbn [Zdigits2]. apply digits2_unique. rewrite <- E.
  pose proof (digits2_bounds p) as [Hlo Hhi].
  replace (Zpos (digits2_pos p) + j - 1) with ((Zpos (digits2_pos p) - 1) + j) by lia.
  assert (0 <= Zpos (digits2_pos p) - 1) by lia.
  rewrite !Z.pow_add_r by lia.
  assert (0 < 2 ^ j) by (apply Z.pow_pos_nonneg; lia). nia.
Qed.

(** Shifting out zero bits loses nothing. *)
Lemma shr_1_double (q : positive) :
  shr_1 {| shr_m := 2 * Zpos q; shr_r := false; shr_s := false |}
  = {| shr_m := Zpos q; shr_r := false; shr_s := false |}.
Proof. reflexivity. Qed.

Lemma iter_shr_1_exact (k : nat) (q : positive) :
  Nat.iter k shr_1 {| shr_m := Zpos q * 2 ^ Z.of_nat k; shr_r := false; shr_s := false |}
  = {| shr_m := Zpos q; shr_r := false; shr_s := false |}.
Proof.
  revert q. induction k as [| k IH]; intro q.
  - change (2 ^ Z.of_nat 0) with 1. rewrite Z.mul_1_r. reflexivity.
  - rewrite Nat.iter_succ_r.
    replace (Zpos q * 2 ^ Z.of_nat (S k)) with (2 * (Zpos (q * Z.to_pos (2 ^ Z.of_nat k)))).
    + rewrite shr_1_double. 
      replace (Zpos (q * Z.to_pos (2 ^ Z.of_nat k))) with (Zpos q * 2 ^ Z.of_nat k). apply IH.
      rewrite Pos2Z.inj_mul, Z2Pos.id; auto. apply Z.pow_pos_nonneg; lia.
    + rewrite Pos2Z.inj_mul, Z2Pos.id by (apply Z.pow_pos_nonneg; lia).
      rewrite Nat2Z.inj_succ, Z.pow_succ_r by lia. lia.
Qed.

Lemma shr_exact (q : positive) (e k : Z) :
  0 <= k ->
  shr {| shr_m := Zpos q * 2 ^ k; shr_r := false; shr_s := false |} e k
  = ({| shr_m := Zpos q; shr_r := false; shr_s := false |}, e + k).
Proof.
  intro Hk. destruct k as [| p | p]; try lia.
  - cbn [shr]. change (2 ^ 0) with 1. rewrite Z.mul_1_r, Z.add_0_r. reflexivity.
  - cbn [shr]. rewrite iter_pos_nat. f_equal.
    rewrite <- (positive_nat_Z p) at 1. apply iter_shr_1_exact.
Qed.

Lemma fexp_shift_range (m : positive) (e n : Z) :
  bounded prec emax m e = true -> 0 <= n <= 52 ->
  0 <= fexp prec emax (Zpos (digits2_pos m) + 52 + (e + (n - 52))) - (e + (n - 52)) <= 52.
Proof.
  unfold bounded, canonical_mantissa, fexp, emin, prec, emax.
  intros H Hn. apply andb_true_iff in H. destruct H as [H _].
  apply Z.eqb_eq in H. lia.
Qed.

(** A canonical mantissa-exponent pair is left alone by rounding. *)
Lemma binary_round_aux_canonical (s : bool) (q : positive) (e : Z) :
  fexp prec emax (Zpos (digits2_pos q) + e) = e ->
  binary_round_aux prec emax s (Zpos q) e loc_Exact
  = if e <=? emax - prec then S754_finite s q e else S754_infinity s.
Proof.
  intro H. unfold binary_round_aux, shr_fexp. cbn [Zdigits2].
  rewrite H, Z.sub_diag. cbn [shr shr_record_of_loc shr_m loc_of_shr_record round_nearest_even Zdigits2].
  rewrite H, Z.sub_diag. reflexivity.
Qed.

(** Rounding [q * 2 ^ j] at exponent [e]: when the shift that makes the pair
    canonical is at most [j], no bit is lost. *)
Lemma binary_round_aux_pow2 (s : bool) (q : positive) (j e : Z) :
  let k := fexp prec emax (Zpos (digits2_pos q) + j + e) - e in
  0 <= k <= j ->
  binary_round_aux prec emax s (Zpos q * 2 ^ j) e loc_Exact
  = if e + k <=? emax - prec
    then S754_finite s (Z.to_pos (Zpos q * 2 ^ (j - k))) (e + k)
    else S754_infinity s.
Proof.
  intros k Hk.
  assert (Hpos : 0 < Zpos q * 2 ^ (j - k))
    by (apply Z.mul_pos_pos; [lia | apply Z.pow_pos_nonneg; lia]).
  destruct (Zpos q * 2 ^ (j - k)) as [| q' |] eqn:Eq'; try lia.
  assert (Hsplit : Zpos q * 2 ^ j = Zpos q' * 2 ^ k).
  { rewrite <- Eq', <- Z.mul_assoc, <- Z.pow_add_r by lia. do 2 f_equal. lia. }
  assert (Hd : Zpos (digits2_pos q') = Zpos (digits2_pos q) + (j - k)).
  { pose proof (digits2_mul_pow2 q (j - k)) as H. rewrite Eq' in H. apply H. lia. }
  unfold binary_round_aux, shr_fexp.
  rewrite (digits2_mul_pow2 q j) by lia. fold k.
  cbn [shr_record_of_loc]. rewrite Hsplit, shr_exact by lia.
  cbn [shr_m loc_of_shr_record round_nearest_even Zdigits2 shr_record_of_loc].
  rewrite Hd.
  replace (Zpos (digits2_pos q) + (j - k) + (e + k))
    with (Zpos (digits2_pos q) + j + e) by lia.
  replace (fexp prec emax (Zpos (digits2_pos q) + j + e) - (e + k)) with 0
    by (unfold k; lia).
  cbn [shr shr_m]. reflexivity.
Qed.

(** Multiplying a double by [2 ^ n] (with [0 <= n <= 52]; the other operand
    is the double [2 ^ n], mantissa [2 ^ 52]): the product is exact, or it
    is an infinity when it leaves the range. *)
Lemma fmul_pow2_r (s sy : bool) (m : positive) (e n : Z) :
  bounded prec emax m e = true -> 0 <= n <= 52 ->
  let ex := e + (n - 52) in
  let k := fexp prec emax (Zpos (digits2_pos m) + 52 + ex) - ex in
  fmul (S754_finite s m e) (S754_finite sy 4503599627370496 (n - 52))
  = if ex + k <=? emax - prec
    then S754_finite (xorb s sy) (Z.to_pos (Zpos m * 2 ^ (52 - k))) (ex + k)
    else S754_infinity (xorb s sy).
Proof.
  intros Hb Hn ex k. unfold fmul. cbn [SFmul].
  change (Zpos (m * 4503599627370496)) with (Zpos m * 2 ^ 52).
  apply binary_round_aux_pow2. apply fexp_shift_range; assumption.
Qed.

Lemma fmul_pow2_l (s sy : bool) (m : positive) (e n : Z) :
  bounded prec emax m e = true -> 0 <= n <= 52 ->
  let ex := e + (n - 52) in
  let k := fexp prec emax (Zpos (digits2_pos m) + 52 + ex) - ex in
  fmul (S754_finite sy 4503599627370496 (n - 52)) (S754_finite s m e)
  = if ex + k <=? emax - prec
    then S754_finite (xorb sy s) (Z.to_pos (Zpos m * 2 ^ (52 - k))) (ex + k)
    else S754_infinity (xorb sy s).
Proof.
  intros Hb Hn ex k. unfold fmul. cbn [SFmul].
  rewrite Pos.mul_comm, Z.add_comm.
  change (Zpos (m * 4503599627370496)) with (Zpos m * 2 ^ 52).
  apply binary_round_aux_pow2. apply fexp_shift_range; assumption.
Qed.

(** ** Rounding to the nearest integer *)

Lemma round_half_even_frac_spec (num : Z) (den : positive) :
  round_half_even (num # den) = round_half_even_frac num den.
Proof.
  unfold round_half_even, round_half_even_frac, Qcompare.
  cbn [Qfloor Qminus Qplus Qopp inject_Z Qnum Qden].
  replace ((num * 1 + - (num / Zpos den) * Zpos den) * 2)
    with (2 * (num mod Zpos den))
    by (rewrite Z.mod_eq by lia; ring).
  replace (1 * Zpos (den * 1)) with (Zpos den) by (rewrite Pos.mul_1_r; lia).
  reflexivity.
Qed.

Lemma round_half_even_comp (p q : Q) :
  (p == q)%Q -> round_half_even p = round_half_even q.
Proof.
  intro H. unfold round_half_even.
  rewrite (Qfloor_comp _ _ H).
  assert (Hc : ((p - inject_Z (Qfloor q) ?= 1 # 2) = (q - inject_Z (Qfloor q) ?= 1 # 2))%Q)
    by (apply Qcompare_comp; [rewrite H; reflexivity | reflexivity]).
  rewrite Hc. reflexivity.
Qed.

Lemma round_half_even_frac_opp (num : Z) (den : positive) :
  round_half_even_frac (- num) den = - round_half_even_frac num den.
Proof.
  unfold round_half_even_frac.
  pose proof (Z.mod_pos_bound num (Zpos den) ltac:(lia)) as Hr.
  pose proof (Z.div_mod num (Zpos den) ltac:(lia)) as Hdm.
  destruct (Z.eq_dec (num mod Zpos den) 0) as [E | E].
  - assert (Hq : - num / Zpos den = - (num / Zpos den))
      by (apply Z.div_opp_l_z; [lia | assumption]).
    assert (Hm : - num mod Zpos den = 0)
      by (apply Z.mod_opp_l_z; [lia | assumption]).
    rewrite Hq, Hm, E. cbn [Z.mul Z.compare]. reflexivity.
  - assert (Hq : - num / Zpos den = - (num / Zpos den) - 1)
      by (apply Z.div_opp_l_nz; [lia | assumption]).
    assert (Hm : - num mod Zpos den = Zpos den - num mod Zpos den)
      by (apply Z.mod_opp_l_nz; [lia | assumption]).
    rewrite Hq, Hm.
    set (q := num / Zpos den) in *. set (r := num mod Zpos den) in *.
    assert (Hev : Z.even (- q - 1) = negb (Z.even q)).
    { replace (- q - 1) with (- (q + 1)) by lia.
      rewrite Z.even_opp, Z.even_add. destruct (Z.even q); reflexivity. }
    destruct (Z.compare_spec (2 * r) (Zpos den)) as [C | C | C];
      destruct (Z.compare_spec (2 * (Zpos den - r)) (Zpos den)) as [C' | C' | C'];
      try lia.
    rewrite Hev. destruct (Z.even q); cbn [negb]; lia.
Qed.

Lemma round_half_even_frac_near (num : Z) (den : positive) :
  2 * Z.abs (round_half_even_frac num den * Zpos den - num) <= Zpos den.
Proof.
  unfold round_half_even_frac.
  pose proof (Z.mod_pos_bound num (Zpos den) ltac:(lia)) as Hr.
  pose proof (Z.div_mod num (Zpos den) ltac:(lia)) as Hdm.
  set (q := num / Zpos den) in *. set (r := num mod Zpos den) in *.
  destruct (Z.compare_spec (2 * r) (Zpos den)) as [C | C | C];
    [destruct (Z.even q) | |]; nia.
Qed.

Lemma round_half_even_near (q : Q) :
  (Qabs (inject_Z (round_half_even q) - q) <= 1 # 2)%Q.
Proof.
  destruct q as [num den]. rewrite round_half_even_frac_spec.
  pose proof (round_half_even_frac_near num den) as H.
  set (z := round_half_even_frac num den) in *.
  unfold Qle, Qabs, Qminus, Qplus, Qopp, inject_Z. cbn [Qnum Qden].
  rewrite Pos.mul_1_l. 
  replace (z * Zpos den + - num * 1) with (z * Zpos den - num) by ring. lia.
Qed.

Lemma round_half_even_integer (z : Z) : round_half_even (inject_Z z) = z.
Proof.
  unfold inject_Z. rewrite round_half_even_frac_spec.
  unfold round_half_even_frac. rewrite Z.div_1_r, Z.mod_1_r. reflexivity.
Qed.

(** ** The value of a double *)

Lemma Qpower_2_nonneg (j : Z) : 0 <= j -> (Qpower 2 j == inject_Z (2 ^ j))%Q.
Proof. intro H. symmetry. apply (Zpower_Qpower 2 j H). Qed.

Lemma Qpower_2_neg (e : Z) :
  e < 0 -> (Qpower 2 e == 1 # Z.to_pos (2 ^ (- e)))%Q.
Proof.
  intro H. replace e with (- - e) at 1 by lia.
  rewrite Qpower_opp, Qpower_2_nonneg by lia.
  assert (Hp : 0 < 2 ^ (- e)) by (apply Z.pow_pos_nonneg; lia).
  destruct (2 ^ (- e)) as [| p | p]; try lia. reflexivity.
Qed.

Lemma F2Q_int (s : bool) (m : positive) (e : Z) :
  0 <= e ->
  (F2Q (S754_finite s m e) == inject_Z (cond_Zopp s (Zpos m * 2 ^ e)))%Q.
Proof.
  intro H. cbn [F2Q]. rewrite Qpower_2_nonneg by assumption.
  rewrite <- inject_Z_mult. destruct s; cbn [cond_Zopp];
    rewrite ?Z.mul_opp_l; reflexivity.
Qed.

Lemma F2Q_frac (s : bool) (m : positive) (e : Z) :
  e < 0 ->
  (F2Q (S754_finite s m e) == cond_Zopp s (Zpos m) # Z.to_pos (2 ^ (- e)))%Q.
Proof.
  intro H. cbn [F2Q]. rewrite Qpower_2_neg by assumption.
  unfold Qeq, Qmult, inject_Z. cbn [Qnum Qden]. rewrite Pos.mul_1_l. ring.
Qed.

(** [round] on a finite double is round-half-to-even of its exact value. *)
Lemma py_round_spec (x : float) :
  is_finite x = true -> py_round x = Ok (round_half_even (F2Q x)).
Proof.
  destruct x as [s | s | | s m e]; intro H; try discriminate.
  - reflexivity.
  - cbn [py_round]. f_equal. destruct (Z.leb_spec 0 e) as [He | He].
    + rewrite (round_half_even_comp _ _ (F2Q_int s m e He)).
      rewrite round_half_even_integer. reflexivity.
    + rewrite (round_half_even_comp _ _ (F2Q_frac s m e He)).
      rewrite round_half_even_frac_spec.
      destruct s; cbn [cond_Zopp]; [| reflexivity].
      change (- Zpos m) with (- (Zpos m)). rewrite round_half_even_frac_opp.
      reflexivity.
Qed.

Lemma py_round_finite (x : float) (z : Z) :
  py_round x = Ok z -> is_finite x = true.
Proof. destruct x; cbn; intro H; try discriminate; reflexivity. Qed.

Lemma F2Q_shift (s : bool) (m : positive) (e j : Z) :
  0 <= j ->
  (F2Q (S754_finite s (Z.to_pos (Zpos m * 2 ^ j)) (e - j))
   == F2Q (S754_finite s m e))%Q.
Proof.
  intro Hj. cbn [F2Q].
  assert (Hp : 0 < 2 ^ j) by (apply Z.pow_pos_nonneg; lia).
  rewrite Z2Pos.id by (apply Z.mul_pos_pos; lia).
  replace (cond_Zopp s (Zpos m * 2 ^ j)) with (cond_Zopp s (Zpos m) * 2 ^ j)
    by (destruct s; cbn [cond_Zopp]; ring).
  rewrite inject_Z_mult, <- (Qpower_2_nonneg j Hj).
  replace e with ((e - j) + j) at 2 by lia.
  rewrite (Qpower_plus 2 (e - j) j) by discriminate. ring.
Qed.

Lemma F2Q_scale (s : bool) (m : positive) (e n : Z) :
  0 <= n ->
  (F2Q (S754_finite s m (e + n))
   == F2Q (S754_finite s m e) * inject_Z (2 ^ n))%Q.
Proof.
  intro Hn. cbn [F2Q].
  rewrite (Qpower_plus 2 e n) by discriminate.
  rewrite (Qpower_2_nonneg n Hn). ring.
Qed.

(** The product of a scalable double with the double [2 ^ n] is finite and
    exact. *)
Lemma fmul_pow2_exact (a : float) (n : Z) :
  double a -> 0 <= n <= 52 -> scalable n a = true ->
  is_finite (fmul a (f_pow2 n)) = true /\
  (F2Q (fmul a (f_pow2 n)) == F2Q a * inject_Z (2 ^ n))%Q.
Proof.
  intros Ha Hn Hs. destruct a as [s | s | | s m e]; try discriminate.
  - split; [reflexivity |]. cbn. ring.
  - unfold double in Ha. cbn [valid_binary] in Ha. cbn [scalable] in Hs.
    apply Z.leb_le in Hs. unfold f_pow2.
    rewrite fmul_pow2_r by assumption.
    pose proof (fexp_shift_range m e n Ha Hn) as Hk.
    set (k := fexp prec emax (Zpos (digits2_pos m) + 52 + (e + (n - 52)))
              - (e + (n - 52))) in *.
    assert (Hle : e + (n - 52) + k <= emax - prec).
    { unfold k, fexp, emin, emax, prec. lia. }
    apply Z.leb_le in Hle. rewrite Hle. split; [reflexivity |].
    rewrite xorb_false_r.
    replace (e + (n - 52) + k) with ((e + n) - (52 - k)) by lia.
    rewrite F2Q_shift by lia. apply F2Q_scale. lia.
Qed.

(** Past the range the product is an infinity, on which [round] raises. *)
Lemma fmul_pow2_overflow (s : bool) (m : positive) (e n : Z) :
  bounded prec emax m e = true -> 0 <= n <= 52 ->
  scalable n (S754_finite s m e) = false ->
  fmul (S754_finite s m e) (f_pow2 n) = S754_infinity s.
Proof.
  intros Ha Hn Hs. cbn [scalable] in Hs. apply Z.leb_gt in Hs.
  unfold f_pow2. rewrite fmul_pow2_r by assumption.
  set (k := fexp prec emax (Zpos (digits2_pos m) + 52 + (e + (n - 52)))
            - (e + (n - 52))) in *.
  assert (Hgt : emax - prec < e + (n - 52) + k).
  { unfold k, fexp, emin, emax, prec. lia. }
  apply Z.leb_gt in Hgt. rewrite Hgt, xorb_false_r. reflexivity.
Qed.

(** ** Checking a property on a range of integers by computation *)

Lemma Z_range_In (lo : Z) (cnt : nat) (z : Z) :
  lo <= z < lo + Z.of_nat cnt -> In z (Z_range lo cnt).
Proof.
  intro H. unfold Z_range. apply in_map_iff.
  exists (Z.to_nat (z - lo)). split; [lia |]. apply in_seq. lia.
Qed.

Lemma Z_range_check (P : Z -> bool) (lo : Z) (cnt : nat) :
  forallb P (Z_range lo cnt) = true ->
  forall z, lo <= z < lo + Z.of_nat cnt -> P z = true.
Proof.
  intros H z Hz. rewrite forallb_forall in H. apply H, Z_range_In, Hz.
Qed.

Lemma float_beq_eq (x y : float) : float_beq x y = true -> x = y.
Proof.
  destruct x as [a | a | | a m e], y as [b | b | | b m' e']; cbn;
    try discriminate; try reflexivity.
  - intro H. apply eqb_prop in H. congruence.
  - intro H. apply eqb_prop in H. congruence.
  - intro H. apply andb_true_iff in H. destruct H as [H He].
    apply andb_true_iff in H. destruct H as [Hs Hm].
    apply eqb_prop in Hs. apply Pos.eqb_eq in Hm. apply Z.eqb_eq in He.
    congruence.
Qed.

(** [round] at ties, as Python 3 rounds: 0.5 -> 0, 1.5 -> 2, 2.5 -> 2,
    -1.5 -> -2, and 0.75 -> 1. *)
Example py_round_ties :
  map py_round
    [S754_finite false 4503599627370496 (-53);
     S754_finite false 6755399441055744 (-52);
     S754_finite false 5629499534213120 (-51);
     S754_finite true 6755399441055744 (-52);
     S754_finite false 6755399441055744 (-53)]
  = [Ok 0; Ok 2; Ok 2; Ok (-2); Ok 1].
Proof. vm_compute. reflexivity. Qed.

(** ** The encoder *)

Lemma float_of_int_pow2 (n : Z) :
  0 <= n <= 52 -> float_of_int (2 ^ n) = Ok (f_pow2 n).
Proof.
  intro Hn.
  pose (P := fun n => match float_of_int (2 ^ n) with
                      | Ok f => float_beq f (f_pow2 n)
                      | Raise _ => false
                      end).
  assert (H : P n = true).
  { apply (Z_range_check P 0 53); [vm_compute; reflexivity | lia]. }
  unfold P in H. destruct (float_of_int (2 ^ n)) as [f | e]; [| discriminate].
  apply float_beq_eq in H. congruence.
Qed.

Lemma py_lshift_ok (a b : Z) : 0 <= b -> py_lshift a b = Ok (Z.shiftl a b).
Proof.
  intro H. unfold py_lshift. destruct (Z.ltb_spec b 0); [lia | reflexivity].
Qed.

(** The loop body of [format_qmn] computes the word of the specification on
    every scalable double. *)
Lemma encode_word_spec (m n : Z) (a : float) :
  0 <= m -> 0 <= n -> 1 + m + n <= 32 ->
  double a -> scalable n a = true ->
  encode_word n (Z.shiftl 1 (m + n) - 1) (Z.shiftl 1 (m + n))
    (Z.shiftl 1 (1 + m + n) - 1) (32 - (1 + m + n)) a
  = Ok (spec_word m n (F2Q a)).
Proof.
  intros Hm Hn Ht Ha Hs. unfold encode_word.
  rewrite py_lshift_ok by assumption. cbn [bind].
  rewrite Z.shiftl_1_l. unfold fmul_int.
  rewrite float_of_int_pow2 by lia. cbn [bind].
  destruct (fmul_pow2_exact a n Ha ltac:(lia) Hs) as [Hfin Hval].
  rewrite (py_round_spec _ Hfin). cbn [bind].
  rewrite (round_half_even_comp _ _ Hval).
  unfold spec_word. rewrite (Z.shiftl_1_l (m + n)).
  set (scaled := round_half_even (F2Q a * inject_Z (2 ^ n))).
  set (h := 2 ^ (m + n)).
  do 3 f_equal.
  destruct (Z.gtb_spec scaled (h - 1)); destruct (Z.ltb_spec (h - 1) (- h));
    destruct (Z.ltb_spec scaled (- h)); lia.
Qed.

(** An angle that is finite but not scalable overflows in the product, and
    the run ends in [OverflowError]; an infinity does the same, and a NaN
    ends it in [ValueError]. *)
Lemma encode_word_overflow (n mi hr mask sl : Z) (s : bool) (m : positive) (e : Z) :
  0 <= n <= 52 -> bounded prec emax m e = true ->
  scalable n (S754_finite s m e) = false ->
  encode_word n mi hr mask sl (S754_finite s m e) = Raise OverflowError.
Proof.
  intros Hn Hb Hs. unfold encode_word.
  rewrite py_lshift_ok by lia. cbn [bind]. rewrite Z.shiftl_1_l.
  unfold fmul_int. rewrite float_of_int_pow2 by lia. cbn [bind].
  rewrite fmul_pow2_overflow by assumption. reflexivity.
Qed.

Lemma qmn_loop_mapM (n mi hr mask sl : Z) (angles : list float) (acc : list string) :
  qmn_loop n mi hr mask sl angles acc
  = (ws <- mapM (encode_word n mi hr mask sl) angles ;;
     Ok (acc ++ map hex_word ws)).
Proof.
  revert acc. induction angles as [| a rest IH]; intro acc; cbn [qmn_loop mapM bind].
  - rewrite app_nil_r. reflexivity.
  - destruct (encode_word n mi hr mask sl a) as [w | e]; cbn [bind]; [| reflexivity].
    rewrite IH. destruct (mapM (encode_word n mi hr mask sl) rest) as [ws | e];
      cbn [bind map]; [| reflexivity].
    rewrite <- app_assoc. reflexivity.
Qed.

Lemma mapM_ok {A B : Type} (f : A -> result B) (g : A -> B) (l : list A) :
  Forall (fun a => f a = Ok (g a)) l -> mapM f l = Ok (map g l).
Proof.
  induction 1 as [| a rest Ha _ IH]; cbn [mapM map bind]; [reflexivity |].
  rewrite Ha, IH. reflexivity.
Qed.

Lemma mapM_inv {A B : Type} (f : A -> result B) (l : list A) (bs : list B) :
  mapM f l = Ok bs -> Forall2 (fun a b => f a = Ok b) l bs.
Proof.
  revert bs. induction l as [| a rest IH]; intros bs H; cbn [mapM] in H.
  - injection H as <-. constructor.
  - destruct (f a) as [b | e] eqn:Ea; cbn [bind] in H; [| discriminate].
    destruct (mapM f rest) as [bs' | e]; cbn [bind] in H; [| discriminate].
    injection H as <-. constructor; [assumption | apply IH; reflexivity].
Qed.

(** [format_qmn] past its configuration check. *)
Lemma format_qmn_unfold (angles : list float) (m n : Z) :
  0 <= m + n -> 1 + m + n <= 32 ->
  format_qmn angles m n
  = (ws <- mapM (encode_word n (Z.shiftl 1 (m + n) - 1) (Z.shiftl 1 (m + n))
                   (Z.shiftl 1 (1 + m + n) - 1) (32 - (1 + m + n))) angles ;;
     Ok (map hex_word ws)).
Proof.
  intros Hmn Ht. unfold format_qmn.
  destruct (Z.gtb_spec (1 + m + n) 32); [lia |].
  rewrite !py_lshift_ok by lia. cbn [bind].
  rewrite qmn_loop_mapM. reflexivity.
Qed.

Lemma spec_word_justify (m n : Z) (q : Q) :
  spec_word m n q
  = justify m n (saturate m n (round_half_even (q * inject_Z (2 ^ n)))).
Proof. reflexivity. Qed.

Lemma saturate_range (m n scaled : Z) :
  0 <= m + n ->
  - 2 ^ (m + n) <= saturate m n scaled <= 2 ^ (m + n) - 1.
Proof.
  intro H. unfold saturate.
  assert (0 < 2 ^ (m + n)) by (apply Z.pow_pos_nonneg; lia). lia.
Qed.

Lemma saturate_id (m n scaled : Z) :
  - 2 ^ (m + n) <= scaled <= 2 ^ (m + n) - 1 -> saturate m n scaled = scaled.
Proof. unfold saturate. lia. Qed.

(** ** Bits of a word *)

Lemma testbit_sign (k c : Z) :
  0 <= k -> - 2 ^ k <= c < 2 ^ k -> Z.testbit c k = (c <? 0).
Proof.
  intros Hk Hc. destruct (Z.ltb_spec c 0) as [Hneg | Hpos].
  - replace c with (Z.lnot (- c - 1)) by (unfold Z.lnot; lia).
    rewrite Z.lnot_spec by assumption.
    destruct (Z.eq_dec (- c - 1) 0) as [E | E].
    + rewrite E, Z.bits_0. reflexivity.
    + rewrite Z.bits_above_log2; [reflexivity | lia |].
      apply Z.log2_lt_pow2; lia.
  - destruct (Z.eq_dec c 0) as [E | E].
    + rewrite E, Z.bits_0. reflexivity.
    + apply Z.bits_above_log2; [lia |]. apply Z.log2_lt_pow2; lia.
Qed.

Lemma mask_ones (t : Z) : 0 <= t -> Z.shiftl 1 t - 1 = Z.ones t.
Proof. intro H. rewrite Z.shiftl_1_l, Z.ones_equiv. lia. Qed.

Lemma justify_range (m n c : Z) :
  0 <= m + n -> 1 + m + n <= 32 -> 0 <= justify m n c < 2 ^ 32.
Proof.
  intros Hmn Ht. unfold justify. rewrite mask_ones by lia.
  rewrite Z.land_ones, Z.shiftl_mul_pow2 by lia.
  pose proof (Z.mod_pos_bound c (2 ^ (1 + m + n))
                ltac:(apply Z.pow_pos_nonneg; lia)) as Hr.
  assert (Hp : 0 < 2 ^ (32 - (1 + m + n))) by (apply Z.pow_pos_nonneg; lia).
  assert (Hs : 2 ^ (1 + m + n) * 2 ^ (32 - (1 + m + n)) = 2 ^ 32).
  { rewrite <- Z.pow_add_r by lia. f_equal. lia. }
  nia.
Qed.

Lemma justify_sign_bit (m n c : Z) :
  0 <= m + n -> 1 + m + n <= 32 ->
  - 2 ^ (m + n) <= c <= 2 ^ (m + n) - 1 ->
  Z.testbit (justify m n c) 31 = (c <? 0).
Proof.
  intros Hmn Ht Hc. unfold justify. rewrite mask_ones by lia.
  rewrite Z.shiftl_spec by lia.
  replace (31 - (32 - (1 + m + n))) with (m + n) by lia.
  rewrite Z.land_spec, Z.ones_spec_low by lia.
  rewrite andb_true_r. apply testbit_sign; lia.
Qed.

Lemma justify_low_bits (m n c j : Z) :
  0 <= j < 32 - (1 + m + n) -> Z.testbit (justify m n c) j = false.
Proof.
  intro Hj. unfold justify. apply Z.shiftl_spec_low. lia.
Qed.

(** Reading a justified word back: the arithmetic right shift of the
    signed 32-bit word returns the clamped value. *)
Lemma unjustify (m n c : Z) :
  0 <= m + n -> 1 + m + n <= 32 ->
  - 2 ^ (m + n) <= c <= 2 ^ (m + n) - 1 ->
  Z.shiftr (if 2 ^ 31 <=? justify m n c then justify m n c - 2 ^ 32
            else justify m n c) (32 - (1 + m + n)) = c.
Proof.
  intros Hmn Ht Hc. unfold justify. rewrite mask_ones by lia.
  rewrite Z.land_ones, Z.shiftl_mul_pow2 by lia.
  set (t := 1 + m + n) in *.
  assert (Hp : 0 < 2 ^ (32 - t)) by (apply Z.pow_pos_nonneg; lia).
  assert (Hh : 0 < 2 ^ (m + n)) by (apply Z.pow_pos_nonneg; lia).
  assert (Ht2 : 2 ^ t = 2 * 2 ^ (m + n)).
  { unfold t. replace (1 + m + n) with (Z.succ (m + n)) by lia.
    apply Z.pow_succ_r. lia. }
  assert (Hs : 2 ^ t * 2 ^ (32 - t) = 2 ^ 32).
  { rewrite <- Z.pow_add_r by lia. f_equal. lia. }
  assert (H31 : 2 ^ (m + n) * 2 ^ (32 - t) = 2 ^ 31).
  { rewrite <- Z.pow_add_r by lia. f_equal. lia. }
  rewrite Z.shiftr_div_pow2 by lia.
  destruct (Z.lt_ge_cases c 0) as [Hneg | Hpos].
  - assert (Hm : c mod 2 ^ t = c + 2 ^ t).
    { symmetry. apply Z.mod_unique with (q := -1); lia. }
    rewrite Hm. destruct (Z.leb_spec (2 ^ 31) ((c + 2 ^ t) * 2 ^ (32 - t))); [| nia].
    replace ((c + 2 ^ t) * 2 ^ (32 - t) - 2 ^ 32) with (c * 2 ^ (32 - t)) by nia.
    apply Z.div_mul. lia.
  - rewrite Z.mod_small by lia.
    destruct (Z.leb_spec (2 ^ 31) (c * 2 ^ (32 - t))); [nia |].
    apply Z.div_mul. lia.
Qed.

(** ** Hexadecimal text *)

Lemma length_app_string (s1 s2 : string) :
  String.length (s1 ++ s2) = (String.length s1 + String.length s2)%nat.
Proof. induction s1 as [| c s1 IH]; cbn; [reflexivity | now rewrite IH]. Qed.

Lemma length_repeat_char (c : ascii) (k : nat) :
  String.length (repeat_char c k) = k.
Proof. induction k as [| k IH]; cbn; [reflexivity | now rewrite IH]. Qed.

Lemma length_string_of_list (l : list ascii) :
  String.length (string_of_list_ascii l) = List.length l.
Proof. induction l as [| c l IH]; cbn; [reflexivity | now rewrite IH]. Qed.

Lemma string_all_app (P : ascii -> bool) (s1 s2 : string) :
  string_all P (s1 ++ s2) = string_all P s1 && string_all P s2.
Proof.
  induction s1 as [| c s1 IH]; cbn; [reflexivity |].
  rewrite IH, andb_assoc. reflexivity.
Qed.

Lemma string_all_repeat (P : ascii -> bool) (c : ascii) (k : nat) :
  P c = true -> string_all P (repeat_char c k) = true.
Proof. intro H. induction k as [| k IH]; cbn; [reflexivity | now rewrite H, IH]. Qed.

Lemma string_all_of_list (P : ascii -> bool) (l : list ascii) :
  Forall (fun c => P c = true) l -> string_all P (string_of_list_ascii l) = true.
Proof. induction 1 as [| c l Hc _ IH]; cbn; [reflexivity | now rewrite Hc, IH]. Qed.

Lemma hex_digit_upper (d : Z) : 0 <= d < 16 -> is_upper_hex (hex_digit d) = true.
Proof.
  intro H.
  apply (Z_range_check (fun d => is_upper_hex (hex_digit d)) 0 16);
    [vm_compute; reflexivity | lia].
Qed.

Lemma length_upper_hex (z : Z) : String.length (upper_hex z) = hex_len z.
Proof.
  unfold upper_hex.
  rewrite length_string_of_list, length_map, length_rev, length_seq. reflexivity.
Qed.

Lemma upper_hex_digits (z : Z) : string_all is_upper_hex (upper_hex z) = true.
Proof.
  unfold upper_hex. apply string_all_of_list. apply Forall_map.
  apply Forall_forall. intros i _. apply hex_digit_upper.
  apply Z.mod_pos_bound. lia.
Qed.

Lemma hex_len_word (w : Z) : 0 <= w < 2 ^ 32 -> (hex_len w <= 8)%nat.
Proof.
  intro H. unfold hex_len. destruct (Z.eqb_spec w 0); [lia |].
  assert (Z.log2 w < 32) by (apply Z.log2_lt_pow2; lia).
  assert (0 <= Z.log2 w) by apply Z.log2_nonneg.
  assert (Z.log2 w / 4 < 8) by (apply Z.div_lt_upper_bound; lia).
  assert (0 <= Z.log2 w / 4) by (apply Z.div_pos; lia).
  lia.
Qed.

(** A word below [2 ^ 32] is written as exactly eight upper-case
    hexadecimal digits. *)
Lemma format_08X_word (w : Z) :
  0 <= w < 2 ^ 32 ->
  String.length (format_08X w) = 8%nat /\
  string_all is_upper_hex (format_08X w) = true.
Proof.
  intro H. unfold format_08X. destruct (Z.ltb_spec w 0); [lia |].
  unfold pad_left. pose proof (hex_len_word w H) as Hl. split.
  - rewrite length_app_string, length_repeat_char, length_upper_hex. lia.
  - rewrite string_all_app, upper_hex_digits, string_all_repeat; reflexivity.
Qed.

(** What the loop body returns when it returns. *)
Lemma encode_word_inv (m n : Z) (a : float) (w : Z) :
  0 <= m -> 0 <= n -> 1 + m + n <= 32 ->
  encode_word n (Z.shiftl 1 (m + n) - 1) (Z.shiftl 1 (m + n))
    (Z.shiftl 1 (1 + m + n) - 1) (32 - (1 + m + n)) a = Ok w ->
  exists scaled,
    py_round (fmul a (f_pow2 n)) = Ok scaled /\
    w = justify m n (saturate m n scaled).
Proof.
  intros Hm Hn Ht. unfold encode_word.
  rewrite py_lshift_ok by assumption. cbn [bind].
  rewrite Z.shiftl_1_l. unfold fmul_int.
  rewrite float_of_int_pow2 by lia. cbn [bind].
  destruct (py_round (fmul a (f_pow2 n))) as [scaled | e]; cbn [bind];
    [| discriminate].
  intro H. injection H as <-. exists scaled. split; [reflexivity |].
  unfold justify, saturate. rewrite (Z.shiftl_1_l (m + n)).
  set (h := 2 ^ (m + n)). do 2 f_equal.
  destruct (Z.gtb_spec scaled (h - 1)); destruct (Z.ltb_spec (h - 1) (- h));
    destruct (Z.ltb_spec scaled (- h)); lia.
Qed.

Lemma Forall2_length_eq {A B : Type} (R : A -> B -> Prop) (l : list A) (l' : list B) :
  Forall2 R l l' -> List.length l = List.length l'.
Proof. induction 1; cbn; congruence. Qed.

Lemma Forall2_nth_error {A B : Type} (R : A -> B -> Prop) (l : list A) (l' : list B) :
  Forall2 R l l' ->
  forall i a, nth_error l i = Some a -> exists b, nth_error l' i = Some b /\ R a b.
Proof.
  induction 1 as [| x y l l' Hxy _ IH]; intros i a Hi.
  - destruct i; discriminate.
  - destruct i as [| i]; cbn in *.
    + injection Hi as <-. exists y. split; [reflexivity | assumption].
    + apply IH, Hi.
Qed.

(** C1. On every list of doubles that can be scaled by [2 ^ n] within the
    double range, and every format with [1 + m + n <= 32], the encoder
    maps each angle on its own to the word of the specification:
    [scaled = round(angle * 2^n)] with ties to even, saturated to
    [[-2^(m+n), 2^(m+n) - 1]], masked with [(1 << (1+m+n)) - 1] and shifted
    left by [32 - (1+m+n)]. *)
Theorem format_qmn_words (angles : list float) (m n : Z) :
  0 <= m -> 0 <= n -> 1 + m + n <= 32 ->
  Forall (fun a => double a /\ scalable n a = true) angles ->
  format_qmn angles m n
  = Ok (map (fun a => hex_word (spec_word m n (F2Q a))) angles).
Proof.
  intros Hm Hn Ht Hall. rewrite format_qmn_unfold by lia.
  rewrite (mapM_ok _ (fun a => spec_word m n (F2Q a))).
  - cbn [bind]. rewrite map_map. reflexivity.
  - eapply Forall_impl; [| exact Hall]. intros a [Ha Hs].
    apply encode_word_spec; assumption.
Qed.

Lemma format_qmn_words_witness :
  format_qmn [pi_over_4; S754_finite true 7074237752028440 (-53);
              S754_zero false; S754_finite false 1 (-1074)] 1 6
  = Ok ["0x32000000"; "0xCE000000"; "0x00000000"; "0x00000000"]%string.
Proof.
  apply (format_qmn_words
           [pi_over_4; S754_finite true 7074237752028440 (-53);
            S754_zero false; S754_finite false 1 (-1074)] 1 6);
    [lia | lia | lia |].
  repeat constructor.
Defined.

(** C5. With a valid format, the words come out one per angle and in the
    order of the angles; in each word bit 31 is the sign of the clamped
    scaled value of its angle and the low [32 - (1+m+n)] bits are zero.
    The encoder does return on every list of scalable doubles. *)
Theorem format_qmn_layout (angles : list float) (m n : Z) :
  0 <= m -> 0 <= n -> 1 + m + n <= 32 ->
  (Forall (fun a => double a /\ scalable n a = true) angles ->
   exists out, format_qmn angles m n = Ok out) /\
  forall out, format_qmn angles m n = Ok out ->
    List.length out = List.length angles /\
    forall i a, nth_error angles i = Some a ->
      exists scaled,
        py_round (fmul a (f_pow2 n)) = Ok scaled /\
        let clamped := saturate m n scaled in
        let word := justify m n clamped in
        nth_error out i = Some (hex_word word) /\
        Z.testbit word 31 = (clamped <? 0) /\
        forall j, 0 <= j < 32 - (1 + m + n) -> Z.testbit word j = false.
Proof.
  intros Hm Hn Ht. split.
  - intro Hall. eexists. apply format_qmn_words; assumption.
  - intros out Hout. rewrite format_qmn_unfold in Hout by lia.
    destruct (mapM _ angles) as [ws | e] eqn:Ews; cbn [bind] in Hout;
      [| discriminate].
    injection Hout as <-. apply mapM_inv in Ews. split.
    + rewrite length_map. symmetry. eapply Forall2_length_eq, Ews.
    + intros i a Hi.
      destruct (Forall2_nth_error _ _ _ Ews i a Hi) as [w [Hw Hew]].
      destruct (encode_word_inv m n a w Hm Hn Ht Hew) as [scaled [Hr ->]].
      exists scaled. split; [exact Hr |]. cbn zeta. split; [| split].
      * rewrite nth_error_map, Hw. reflexivity.
      * apply justify_sign_bit; [lia | lia |]. apply saturate_range. lia.
      * intros j Hj. apply justify_low_bits, Hj.
Qed.

Lemma format_qmn_layout_witness :
  List.length ["0x32000000"; "0xCE000000"]%string = 2%nat /\
  exists scaled,
    py_round (fmul (S754_finite true 7074237752028440 (-53)) (f_pow2 6))
    = Ok scaled /\
    nth_error ["0x32000000"; "0xCE000000"]%string 1
    = Some (hex_word (justify 1 6 (saturate 1 6 scaled))) /\
    Z.testbit (justify 1 6 (saturate 1 6 scaled)) 31 = (saturate 1 6 scaled <? 0).
Proof.
  destruct (format_qmn_layout
              [pi_over_4; S754_finite true 7074237752028440 (-53)] 1 6
              ltac:(lia) ltac:(lia) ltac:(lia)) as [_ H].
  destruct (H ["0x32000000"; "0xCE000000"]%string eq_refl) as [Hlen Hnth].
  split; [exact Hlen |].
  destruct (Hnth 1%nat (S754_finite true 7074237752028440 (-53)) eq_refl)
    as [scaled [Hr [Hw [Hs _]]]].
  exists scaled. split; [exact Hr |]. split; [exact Hw | exact Hs].
Defined.

(** C10. Whatever the floats of the list, with [m, n >= 0] and
    [1 + m + n <= 32] every word the encoder produces lies in
    [[0, 2^32)] and is written as ['0x'] followed by exactly eight
    upper-case hexadecimal digits. *)
Theorem format_qmn_word_range (angles : list float) (m n : Z) (out : list string) :
  0 <= m -> 0 <= n -> 1 + m + n <= 32 ->
  format_qmn angles m n = Ok out ->
  Forall (fun s => exists word digits,
            0 <= word < 2 ^ 32 /\
            s = hex_word word /\
            s = String "0" (String "x" digits) /\
            String.length digits = 8%nat /\
            string_all is_upper_hex digits = true) out.
Proof.
  intros Hm Hn Ht Hout. rewrite format_qmn_unfold in Hout by lia.
  destruct (mapM _ angles) as [ws | e] eqn:Ews; cbn [bind] in Hout;
    [| discriminate].
  injection Hout as <-. apply mapM_inv in Ews.
  apply Forall_map.
  induction Ews as [| a w l ws Haw _ IH]; constructor; [| exact IH].
  assert (Hw : 0 <= w < 2 ^ 32).
  { unfold encode_word in Haw.
    destruct (py_lshift 1 n) as [p | ?]; cbn [bind] in Haw; [| discriminate].
    destruct (fmul_int a p) as [x | ?]; cbn [bind] in Haw; [| discriminate].
    destruct (py_round x) as [scaled | ?]; cbn [bind] in Haw; [| discriminate].
    injection Haw as <-.
    match goal with |- 0 <= Z.shiftl (Z.land ?c _) _ < _ =>
      change (0 <= justify m n c < 2 ^ 32) end.
    apply justify_range; lia. }
  destruct (format_08X_word w Hw) as [Hlen Hhex].
  exists w, (format_08X w). repeat split; try assumption; lia.
Qed.

Lemma format_qmn_word_range_witness :
  Forall (fun s => exists word digits,
            0 <= word < 2 ^ 32 /\
            s = hex_word word /\
            s = String "0" (String "x" digits) /\
            String.length digits = 8%nat /\
            string_all is_upper_hex digits = true)
    ["0x80000000"; "0x7FFFFFFF"; "0xFFFFFFFF"]%string.
Proof.
  apply (format_qmn_word_range
           [S754_finite true 4503599627370496 200;
            S754_finite false 4503599627370496 200;
            S754_finite true 4503599627370496 (-53)] 30 1);
    [lia | lia | lia | reflexivity].
Defined.

(** C2. A format with [1 + m + n > 32] is refused before any angle is
    looked at: whatever the list, the call ends in [SystemExit] with the
    message naming [m], [n] and their sum with the sign bit, and the exit
    status is not zero. A format with [1 + m + n = 32] is accepted. *)
Theorem format_qmn_bit_check (angles : list float) (m n : Z) :
  (1 + m + n > 32 ->
   format_qmn angles m n
   = Raise (SystemExit
              ("Error: 1 (sign) + m (" ++ str_int m ++ ") + n (" ++ str_int n
               ++ ") = " ++ str_int (1 + m + n) ++ " bits exceeds 32.")) /\
   exit_status (format_qmn angles m n) <> 0 /\
   exit_message (format_qmn angles m n)
   = Some ("Error: 1 (sign) + m (" ++ str_int m ++ ") + n (" ++ str_int n
           ++ ") = " ++ str_int (1 + m + n) ++ " bits exceeds 32.")%string) /\
  (1 + m + n = 32 -> 0 <= m -> 0 <= n ->
   Forall (fun a => double a /\ scalable n a = true) angles ->
   exists out, format_qmn angles m n = Ok out /\
               List.length out = List.length angles).
Proof.
  split.
  - intro H. unfold format_qmn.
    destruct (Z.gtb_spec (1 + m + n) 32); [| lia].
    split; [reflexivity | split; [discriminate | reflexivity]].
  - intros Ht Hm Hn Hall. eexists. split.
    + apply format_qmn_words; [assumption | assumption | lia | assumption].
    + apply length_map.
Qed.

Lemma format_qmn_bit_check_witness :
  (format_qmn [S754_nan; pi_over_4] 16 16
   = Raise (SystemExit "Error: 1 (sign) + m (16) + n (16) = 33 bits exceeds 32.")
   /\ exit_status (format_qmn [S754_nan; pi_over_4] 16 16) <> 0
   /\ exit_message (format_qmn [S754_nan; pi_over_4] 16 16)
      = Some "Error: 1 (sign) + m (16) + n (16) = 33 bits exceeds 32."%string) /\
  exists out, format_qmn [pi_over_4] 15 16 = Ok out /\ List.length out = 1%nat.
Proof.
  split.
  - apply (proj1 (format_qmn_bit_check [S754_nan; pi_over_4] 16 16)). lia.
  - apply (proj2 (format_qmn_bit_check [pi_over_4] 15 16));
      [lia | lia | lia | repeat constructor].
Defined.

(** The scenarios of the specification: pi/4 in Q1.6 is [50 << 24]; in Q0.1
    its scaled value 2 is clamped to 1 and does not reach the sign bit; a
    format of 33 bits is refused and one of 32 bits is accepted. *)
Example format_qmn_q1_6 : format_qmn [pi_over_4] 1 6 = Ok ["0x32000000"%string].
Proof. vm_compute. reflexivity. Qed.

Example format_qmn_clamps : format_qmn [pi_over_4] 0 1 = Ok ["0x40000000"%string].
Proof. vm_compute. reflexivity. Qed.

Example format_qmn_33_bits :
  exit_message (format_qmn [pi_over_4] 16 16)
  = Some "Error: 1 (sign) + m (16) + n (16) = 33 bits exceeds 32."%string.
Proof. vm_compute. reflexivity. Qed.

Example format_qmn_32_bits : format_qmn [pi_over_4] 0 31 = Ok ["0x6487ED51"%string].
Proof. vm_compute. reflexivity. Qed.

(** ** The round trip *)

Lemma Qpower_2_pos (j : Z) : (0 < Qpower 2 j)%Q.
Proof. apply Qpower_0_lt. reflexivity. Qed.

Lemma Qinv_pow2_succ (n : Z) :
  0 <= n -> (Qpower 2 (- (n + 1)) == (1 # 2) * / inject_Z (2 ^ n))%Q.
Proof.
  intro Hn. rewrite Qpower_opp, (Qpower_plus 2 n 1) by discriminate.
  rewrite <- (Qpower_2_nonneg n Hn).
  change (Qpower 2 1) with (2 # 1)%Q.
  pose proof (Qpower_2_pos n) as Hp.
  field. intro E. rewrite E in Hp. discriminate.
Qed.

Lemma scaled_error (q : Q) (n c : Z) :
  0 <= n ->
  (Qabs (inject_Z c - q * inject_Z (2 ^ n)) <= 1 # 2)%Q ->
  (Qabs (inject_Z c / inject_Z (2 ^ n) - q) <= Qpower 2 (- (n + 1)))%Q.
Proof.
  intros Hn H. rewrite Qinv_pow2_succ by assumption.
  assert (Hp : (0 < inject_Z (2 ^ n))%Q).
  { rewrite <- Qpower_2_nonneg by assumption. apply Qpower_2_pos. }
  assert (Hne : ~ (inject_Z (2 ^ n) == 0)%Q).
  { intro E. rewrite E in Hp. discriminate. }
  assert (Hi : (0 < / inject_Z (2 ^ n))%Q) by (apply Qinv_lt_0_compat, Hp).
  assert (E : (inject_Z c / inject_Z (2 ^ n) - q
               == (inject_Z c - q * inject_Z (2 ^ n)) * / inject_Z (2 ^ n))%Q)
    by (field; exact Hne).
  rewrite E, Qabs_Qmult, (Qabs_pos (/ inject_Z (2 ^ n))) by (apply Qlt_le_weak, Hi).
  apply Qmult_le_compat_r; [exact H | apply Qlt_le_weak, Hi].
Qed.

(** A finite double whose scaled value is inside the clamp range is far
    from the overflow of the product. *)
Lemma in_range_scalable (m n : Z) (a : float) :
  0 <= m -> 0 <= n -> 1 + m + n <= 32 ->
  double a -> is_finite a = true ->
  - 2 ^ (m + n) <= round_half_even (F2Q a * inject_Z (2 ^ n)) <= 2 ^ (m + n) - 1 ->
  scalable n a = true.
Proof.
  intros Hm Hn Ht Ha Hf Hr. destruct a as [s | s | | s mant e]; try discriminate.
  - reflexivity.
  - cbn [scalable]. apply Z.leb_le.
    destruct (Z.le_gt_cases (Zpos (digits2_pos mant) + e + n) 1024) as [H | H];
      [exact H | exfalso].
    unfold double in Ha. cbn [valid_binary] in Ha.
    unfold bounded, canonical_mantissa in Ha.
    apply andb_true_iff in Ha. destruct Ha as [Hc _]. apply Z.eqb_eq in Hc.
    unfold fexp, emin, prec, emax in Hc.
    assert (He : 941 <= e) by lia.
    assert (Hq : (F2Q (S754_finite s mant e) * inject_Z (2 ^ n)
                  == inject_Z (cond_Zopp s (Zpos mant * 2 ^ e) * 2 ^ n))%Q).
    { rewrite F2Q_int by lia. rewrite <- inject_Z_mult. reflexivity. }
    rewrite (round_half_even_comp _ _ Hq), round_half_even_integer in Hr.
    assert (Hpe : 2 ^ 941 <= 2 ^ e) by (apply Z.pow_le_mono_r; lia).
    assert (Hpn : 0 < 2 ^ n) by (apply Z.pow_pos_nonneg; lia).
    assert (Hpm : 2 ^ (m + n) <= 2 ^ 31) by (apply Z.pow_le_mono_r; lia).
    assert (Hbig : 2 ^ 941 <= Zpos mant * 2 ^ e * 2 ^ n) by nia.
    assert (H31 : 2 ^ 31 < 2 ^ 941) by (apply Z.pow_lt_mono_r; lia).
    destruct s; cbn [cond_Zopp] in Hr; nia.
Qed.

(** C7. For a finite angle whose scaled value is not clamped, decoding its
    word (arithmetic right shift by [32 - (1+m+n)] of the signed word, then
    division by [2^n]) gives the angle back within [2^-(n+1)]. *)
Theorem round_trip_error (m n : Z) (a : float) :
  0 <= m -> 0 <= n -> 1 + m + n <= 32 ->
  double a -> is_finite a = true ->
  - 2 ^ (m + n) <= round_half_even (F2Q a * inject_Z (2 ^ n)) <= 2 ^ (m + n) - 1 ->
  let word := spec_word m n (F2Q a) in
  format_qmn [a] m n = Ok [hex_word word] /\
  (Qabs (decode m n word - F2Q a) <= Qpower 2 (- (n + 1)))%Q.
Proof.
  intros Hm Hn Ht Ha Hf Hr word. split.
  - apply (format_qmn_words [a] m n Hm Hn Ht). constructor; [| constructor].
    split; [assumption | exact (in_range_scalable m n a Hm Hn Ht Ha Hf Hr)].
  - unfold word, decode. rewrite spec_word_justify, (saturate_id _ _ _ Hr).
    rewrite unjustify by lia.
    apply scaled_error; [assumption | apply round_half_even_near].
Qed.

Lemma round_trip_error_witness :
  format_qmn [pi_over_4] 1 6 = Ok ["0x32000000"%string] /\
  (Qabs (decode 1 6 (spec_word 1 6 (F2Q pi_over_4)) - F2Q pi_over_4)
   <= Qpower 2 (- (6 + 1)))%Q.
Proof.
  apply (round_trip_error 1 6 pi_over_4);
    [lia | lia | lia | reflexivity | reflexivity | vm_compute; split; discriminate].
Defined.

(** ** The emitter *)

Lemma prefix_is_infix (x s : string) : prefix x s = true -> is_infix x s = true.
Proof. intro H. destruct s; cbn [is_infix]; rewrite H; reflexivity. Qed.

Lemma prefix_app_l (x s1 s2 : string) :
  prefix x s1 = true -> prefix x (s1 ++ s2) = true.
Proof.
  revert s1. induction x as [| a x IH]; intros s1 H;
    [destruct (s1 ++ s2)%string; reflexivity |].
  destruct s1 as [| b s1]; [discriminate |].
  cbn [append prefix] in *. destruct (ascii_dec a b); [apply IH, H | discriminate].
Qed.

Lemma is_infix_app_r (x s1 s2 : string) :
  is_infix x s2 = true -> is_infix x (s1 ++ s2) = true.
Proof.
  intro H. induction s1 as [| c s1 IH]; [exact H |].
  cbn [append is_infix]. rewrite IH. apply orb_true_r.
Qed.

Lemma is_infix_app_l (x s1 s2 : string) :
  is_infix x s1 = true -> is_infix x (s1 ++ s2) = true.
Proof.
  induction s1 as [| c s1 IH]; cbn [is_infix]; intro H.
  - rewrite orb_false_r in H. apply prefix_is_infix, prefix_app_l, H.
  - apply orb_true_iff in H. destruct H as [H | H].
    + apply prefix_is_infix, prefix_app_l, H.
    + cbn [append is_infix]. rewrite (IH H). apply orb_true_r.
Qed.

Lemma append_empty_r (s : string) : (s ++ "")%string = s.
Proof. induction s as [| c s IH]; cbn; congruence. Qed.

Lemma append_assoc_string (s1 s2 s3 : string) :
  ((s1 ++ s2) ++ s3)%string = (s1 ++ s2 ++ s3)%string.
Proof. induction s1 as [| c s1 IH]; cbn; congruence. Qed.

Lemma write_lines (l : list (Z * string)) (w : world) (text : string) :
  lookup_v w = Some text ->
  io_for l (fun ih => write (verilog_line ih)) w
  = ({| stdout := stdout w; rtl_dir := rtl_dir w;
        lookup_v := Some (text ++ String.concat "" (map verilog_line l))%string |},
     Ok tt).
Proof.
  revert w text. induction l as [| ih l IH]; intros w text Hw.
  - cbn. destruct w as [o d f]. cbn in *. subst f.
    rewrite append_empty_r. reflexivity.
  - cbn [io_for]. unfold io_bind, write at 1. rewrite Hw.
    erewrite IH by reflexivity.
    cbn [stdout rtl_dir map]. do 3 f_equal.
    rewrite append_assoc_string. f_equal.
    destruct l as [| ih' l]; cbn [map String.concat].
    + rewrite append_empty_r. reflexivity.
    + reflexivity.
Qed.

(** What the Verilog branch leaves behind when both [--m] and [--n] are
    given. *)
Lemma emit_verilog_ok (a : args) (m n : Z) (hs : list string) (w : world) :
  arg_m a = Some m -> arg_n a = Some n -> rtl_dir w = true ->
  emit_verilog a (Some hs) w
  = ({| stdout := (stdout w ++ (nl ++ "# Generating Verilog file for the lookup table")
                   ++ nl)%string;
        rtl_dir := true;
        lookup_v := Some (verilog_text (1 + m + n) (niter a) hs) |}, Ok tt).
Proof.
  intros Hm Hn Hd. unfold emit_verilog, io_bind, print, open_w, io_lift.
  cbn [stdout rtl_dir lookup_v]. rewrite Hd, Hm, Hn. cbn [add_arg].
  unfold write at 1. cbn [stdout rtl_dir lookup_v].
  erewrite write_lines by reflexivity.
  unfold write. cbn [stdout rtl_dir lookup_v].
  unfold verilog_text. cbn [append].
  rewrite (append_assoc_string (verilog_head (1 + m + n) (niter a)) _ verilog_tail).
  reflexivity.
Qed.

(** The Verilog branch when [--m] or [--n] is missing: the file has been
    opened, hence emptied, when the sum [1+args.m+args.n] raises. *)
Lemma emit_verilog_missing (a : args) (hs : option (list string)) (w : world) :
  arg_m a = None \/ arg_n a = None -> rtl_dir w = true ->
  emit_verilog a hs w
  = ({| stdout := (stdout w ++ (nl ++ "# Generating Verilog file for the lookup table")
                   ++ nl)%string;
        rtl_dir := true;
        lookup_v := Some EmptyString |}, Raise TypeError).
Proof.
  intros Hmn Hd. unfold emit_verilog, io_bind, print, open_w, io_lift.
  cbn [stdout rtl_dir lookup_v]. rewrite Hd.
  destruct (arg_m a) as [m |]; cbn [add_arg]; [| reflexivity].
  destruct Hmn as [Hm | Hn]; [discriminate |]. rewrite Hn. reflexivity.
Qed.

(** Printing changes the standard output only and does not raise. *)
Lemma print_lines {A : Type} (f : A -> string) (l : list A) (w : world) :
  exists text,
    io_for l (fun x => print (f x)) w
    = ({| stdout := text; rtl_dir := rtl_dir w; lookup_v := lookup_v w |}, Ok tt).
Proof.
  revert w. induction l as [| x l IH]; intro w.
  - exists (stdout w). destruct w; reflexivity.
  - cbn [io_for]. unfold io_bind, print at 1.
    match goal with |- context [io_for l _ ?w'] => destruct (IH w') as [text Ht] end.
    exists text. rewrite Ht. reflexivity.
Qed.

(** [main] up to the Verilog branch: the table and the gain are printed and
    the file is not touched. [hex_values] is bound when both [--m] and
    [--n] are given. *)
Lemma main_report (math_atan pow_two_frac : float -> float) (a : args) (w : world)
  (angles : list float) (K : float) :
  generate_cordic_lut math_atan pow_two_frac (niter a) = Ok (angles, K) ->
  (forall m n, arg_m a = Some m -> arg_n a = Some n ->
               exists hs, format_qmn angles m n = Ok hs) ->
  exists text,
    main math_atan pow_two_frac a w
    = (if genverilog a
       then emit_verilog a
              (match arg_m a, arg_n a with
               | Some m, Some n =>
                   match format_qmn angles m n with
                   | Ok hs => Some hs
                   | Raise _ => None
                   end
               | _, _ => None
               end)
       else io_ret tt)
        {| stdout := text; rtl_dir := rtl_dir w; lookup_v := lookup_v w |}.
Proof.
  intros Hgen Hfmt. unfold main, io_bind at 1, io_lift at 1. rewrite Hgen.
  unfold io_bind at 1, print at 1.
  destruct (arg_m a) as [m |] eqn:Em; [destruct (arg_n a) as [n |] eqn:En |].
  - destruct (Hfmt m n eq_refl eq_refl) as [hs Hhs]. rewrite Hhs.
    unfold io_bind at 1. unfold io_bind at 1, io_lift at 1.
    unfold io_bind at 1.
    match goal with |- context [io_for (enumerate hs) ?f ?w'] =>
      destruct (print_lines (fun ih => ("iter " ++ format_2d (fst ih) ++ ": " ++ snd ih)%string)
                  (enumerate hs) w') as [text Ht] end.
    rewrite Ht. unfold io_ret, io_bind, print. cbn [stdout rtl_dir lookup_v].
    eexists. reflexivity.
  - unfold io_bind at 1. unfold io_bind at 1.
    match goal with |- context [io_for (enumerate angles) ?f ?w'] =>
      destruct (print_lines (fun ia => ("iter " ++ format_2d (fst ia) ++ ": atan(2^-"
                              ++ str_int (fst ia) ++ ") = "
                              ++ format_12f (snd ia) ++ " rad")%string)
                  (enumerate angles) w') as [text Ht] end.
    rewrite Ht. unfold io_ret, io_bind, print. cbn [stdout rtl_dir lookup_v].
    eexists. reflexivity.
  - unfold io_bind at 1. unfold io_bind at 1.
    match goal with |- context [io_for (enumerate angles) ?f ?w'] =>
      destruct (print_lines (fun ia => ("iter " ++ format_2d (fst ia) ++ ": atan(2^-"
                              ++ str_int (fst ia) ++ ") = "
                              ++ format_12f (snd ia) ++ " rad")%string)
                  (enumerate angles) w') as [text Ht] end.
    rewrite Ht. unfold io_ret, io_bind, print. cbn [stdout rtl_dir lookup_v].
    eexists. reflexivity.
Qed.

Ltac find_infix :=
  solve [ vm_compute; reflexivity
        | apply is_infix_app_l; find_infix
        | apply is_infix_app_r; find_infix ].

(** C4. What the rendered text is: the head with the module
    [arctan_lookup] and the declaration of the array, one assignment line
    [lookup_table[i] <= 32'h{hex};] per word in the order of the words, and
    the tail with the process that reads [lookup_table[j]]. The array is
    declared as [lookup_table[0:I]], which is [I + 1] entries for a table of
    [I] lines, and not as [lookup_table[0:I-1]]. *)
Theorem main_verilog_text (math_atan pow_two_frac : float -> float)
  (a : args) (w : world) (m n : Z) (angles : list float) (K : float)
  (hs : list string) :
  genverilog a = true -> arg_m a = Some m -> arg_n a = Some n ->
  rtl_dir w = true ->
  generate_cordic_lut math_atan pow_two_frac (niter a) = Ok (angles, K) ->
  format_qmn angles m n = Ok hs ->
  let text := verilog_text (1 + m + n) (niter a) hs in
  (exists out,
     main math_atan pow_two_frac a w
     = ({| stdout := out; rtl_dir := true; lookup_v := Some text |}, Ok tt)) /\
  text = (verilog_head (1 + m + n) (niter a)
          ++ String.concat ""
               (map (fun ih => "        lookup_table[" ++ str_int (fst ih)
                               ++ "] <= 32'h" ++ drop2 (snd ih) ++ ";" ++ nl)
                    (enumerate hs))
          ++ verilog_tail)%string /\
  is_infix "module arctan_lookup " text = true /\
  is_infix "    reg [N-1:0] lookup_table[0:I];" text = true /\
  is_infix "        arctan <= lookup_table[j];" text = true.
Proof.
  intros Hv Hm Hn Hd Hgen Hfmt text. split; [| split; [| split; [| split]]].
  - destruct (main_report math_atan pow_two_frac a w angles K Hgen) as [out Hmain].
    { intros m' n' Hm' Hn'. rewrite Hm in Hm'. rewrite Hn in Hn'.
      injection Hm' as <-. injection Hn' as <-. exists hs. exact Hfmt. }
    rewrite Hmain, Hv, Hm, Hn, Hfmt.
    erewrite emit_verilog_ok; [| exact Hm | exact Hn | exact Hd].
    eexists. reflexivity.
  - reflexivity.
  - unfold text, verilog_text, verilog_head. find_infix.
  - unfold text, verilog_text, verilog_head. find_infix.
  - unfold text, verilog_text, verilog_tail. find_infix.
Qed.

Lemma main_verilog_text_witness :
  let text := verilog_text 8 4
                ["0x32000000"; "0x1E000000"; "0x10000000"; "0x08000000"]%string in
  (exists out,
     main atan_sample pow_frac_sample (sample_args 4 (Some 1) (Some 6) true) fresh_world
     = ({| stdout := out; rtl_dir := true; lookup_v := Some text |}, Ok tt)) /\
  is_infix "    reg [N-1:0] lookup_table[0:I];"%string text = true.
Proof.
  destruct (main_verilog_text atan_sample pow_frac_sample
              (sample_args 4 (Some 1) (Some 6) true) fresh_world 1 6
              [pi_over_4; S754_finite false 8352332796509007 (-54);
               S754_finite false 8826286527774941 (-55);
               S754_finite false 8960721713639278 (-56)]
              (S754_finite false 5483888363090942 (-53))
              ["0x32000000"; "0x1E000000"; "0x10000000"; "0x08000000"]%string
              eq_refl eq_refl eq_refl eq_refl eq_refl eq_refl)
    as [Hmain [_ [_ [Hdecl _]]]].
  split; [exact Hmain | exact Hdecl].
Defined.

(** A run of four turns in Q1.6: four lines populate the table, the declaration
    has the bound [I], and [lookup_table[0:I-1]] occurs nowhere. *)
Lemma main_verilog_sample :
  match main atan_sample pow_frac_sample
          (sample_args 4 (Some 1) (Some 6) true) fresh_world with
  | (w, r) =>
      r = Ok tt /\
      match lookup_v w with
      | Some text =>
          is_infix "    parameter I = 4" text = true /\
          is_infix "lookup_table[0:I];" text = true /\
          is_infix "lookup_table[0:I-1]" text = false /\
          is_infix "lookup_table[3] <= 32'h08000000;" text = true /\
          is_infix "lookup_table[4]" text = false
      | None => False
      end
  end.
Proof. vm_compute. repeat split. Qed.

(** Without the flag the file is left as it was. *)
Lemma main_no_flag (math_atan pow_two_frac : float -> float)
  (a : args) (w : world) (angles : list float) (K : float) :
  genverilog a = false ->
  generate_cordic_lut math_atan pow_two_frac (niter a) = Ok (angles, K) ->
  (forall m n, arg_m a = Some m -> arg_n a = Some n ->
               exists hs, format_qmn angles m n = Ok hs) ->
  exists out,
    main math_atan pow_two_frac a w
    = ({| stdout := out; rtl_dir := rtl_dir w; lookup_v := lookup_v w |}, Ok tt).
Proof.
  intros Hv Hgen Hfmt.
  destruct (main_report math_atan pow_two_frac a w angles K Hgen Hfmt) as [out Hmain].
  rewrite Hmain, Hv. exists out. reflexivity.
Qed.

(** C8. The run with the Verilog flag and without [--m] or [--n]: the
    branch of the flag has no test of the two options (the report branch
    has one), so the file is opened, which creates it or empties it, and
    the sum [1+args.m+args.n] then raises [TypeError]. No module is
    written, but a file is produced and an earlier one is lost. *)
Theorem main_verilog_without_format (math_atan pow_two_frac : float -> float)
  (a : args) (w : world) (angles : list float) (K : float) :
  genverilog a = true -> arg_m a = None \/ arg_n a = None ->
  rtl_dir w = true ->
  generate_cordic_lut math_atan pow_two_frac (niter a) = Ok (angles, K) ->
  exists out,
    main math_atan pow_two_frac a w
    = ({| stdout := out; rtl_dir := true; lookup_v := Some EmptyString |},
       Raise TypeError).
Proof.
  intros Hv Hmn Hd Hgen.
  destruct (main_report math_atan pow_two_frac a w angles K Hgen) as [out Hmain].
  { intros m n Hm Hn. destruct Hmn as [H | H]; congruence. }
  rewrite Hmain, Hv. erewrite emit_verilog_missing; [| exact Hmn | exact Hd].
  eexists. reflexivity.
Qed.

Lemma main_verilog_without_format_witness :
  exists out,
    main atan_sample pow_frac_sample (sample_args 2 None (Some 6) true)
      {| stdout := EmptyString; rtl_dir := true;
         lookup_v := Some "module arctan_lookup"%string |}
    = ({| stdout := out; rtl_dir := true; lookup_v := Some EmptyString |},
       Raise TypeError).
Proof.
  apply (main_verilog_without_format atan_sample pow_frac_sample
           (sample_args 2 None (Some 6) true) _
           [pi_over_4; S754_finite false 8352332796509007 (-54)]
           (S754_finite false 5696652996790542 (-53)));
    [reflexivity | left; reflexivity | reflexivity | vm_compute; reflexivity].
Defined.

(** ** Conversion of integers to doubles *)

Lemma iter_xO_pow2 (p d : positive) :
  Zpos (Pos.iter xO p d) = Zpos p * 2 ^ Zpos d.
Proof.
  induction d as [| d IH] using Pos.peano_ind.
  - cbn [Pos.iter]. lia.
  - rewrite Pos.iter_succ, Pos2Z.inj_succ, Z.pow_succ_r by lia.
    rewrite Pos2Z.inj_xO, IH. ring.
Qed.

(** An integer of at most 53 bits converts exactly: the mantissa is the
    integer shifted to 53 bits. *)
Lemma binary_round_small (s : bool) (p : positive) :
  Zpos (digits2_pos p) <= 53 ->
  binary_round prec emax s p 0
  = S754_finite s (Z.to_pos (Zpos p * 2 ^ (53 - Zpos (digits2_pos p))))
      (Zpos (digits2_pos p) - 53).
Proof.
  intro Hd. unfold binary_round, shl_align.
  set (D := Zpos (digits2_pos p)) in *.
  assert (HD : 1 <= D) by (unfold D; lia).
  assert (Hf : fexp prec emax (D + 0) = D - 53)
    by (unfold fexp, emin, prec, emax; lia).
  rewrite Hf. destruct (D - 53 - 0) as [| q | q] eqn:E; try lia.
  - replace (53 - D) with 0 by lia. change (2 ^ 0) with 1.
    rewrite Z.mul_1_r. cbn [Z.to_pos].
    rewrite binary_round_aux_canonical.
    + replace (D - 53) with 0 by lia. reflexivity.
    + fold D. unfold fexp, emin, prec, emax. lia.
  - assert (Hq : Zpos (Pos.iter xO p q) = Zpos p * 2 ^ (53 - D)).
    { rewrite iter_xO_pow2. do 2 f_equal. lia. }
    rewrite <- Hq. cbn [Z.to_pos].
    rewrite binary_round_aux_canonical.
    + destruct (Z.leb_spec (D - 53) (emax - prec)) as [_ | H];
        [reflexivity | unfold emax, prec in H; lia].
    + assert (Hdig : Zpos (digits2_pos (Pos.iter xO p q)) = 53).
      { pose proof (digits2_mul_pow2 p (53 - D) ltac:(lia)) as H.
        rewrite <- Hq in H. cbn [Zdigits2] in H. rewrite H. fold D. lia. }
      rewrite Hdig. unfold fexp, emin, prec, emax. lia.
Qed.

Lemma float_of_int_small (z : Z) :
  z <> 0 -> Z.abs z < 2 ^ 53 ->
  float_of_int z
  = Ok (S754_finite (z <? 0)
          (Z.to_pos (Z.abs z * 2 ^ (52 - Z.log2 (Z.abs z))))
          (Z.log2 (Z.abs z) - 52)).
Proof.
  intros Hz Hlt. unfold float_of_int, binary_normalize.
  destruct z as [| p | p]; [lia | |].
  - assert (Hd : Zpos (digits2_pos p) <= 53).
    { rewrite digits2_log2.
      assert (Z.log2 (Zpos p) < 53) by (apply Z.log2_lt_pow2; lia). lia. }
    rewrite binary_round_small by assumption.
    rewrite digits2_log2. cbn [Z.abs Z.ltb Z.compare].
    replace (53 - (Z.log2 (Zpos p) + 1)) with (52 - Z.log2 (Zpos p)) by lia.
    replace (Z.log2 (Zpos p) + 1 - 53) with (Z.log2 (Zpos p) - 52) by lia.
    reflexivity.
  - assert (Hd : Zpos (digits2_pos p) <= 53).
    { rewrite digits2_log2.
      assert (Z.log2 (Zpos p) < 53) by (apply Z.log2_lt_pow2; lia). lia. }
    rewrite binary_round_small by assumption.
    rewrite digits2_log2. cbn [Z.abs Z.ltb Z.compare].
    replace (53 - (Z.log2 (Zpos p) + 1)) with (52 - Z.log2 (Zpos p)) by lia.
    replace (Z.log2 (Zpos p) + 1 - 53) with (Z.log2 (Zpos p) - 52) by lia.
    reflexivity.
Qed.

(** One step of the right shift halves the mantissa and remembers the bit
    that falls out. *)
Lemma shr_1_spec (mrs : shr_record) :
  0 <= shr_m mrs ->
  shr_m (shr_1 mrs) = shr_m mrs / 2 /\ shr_r (shr_1 mrs) = Z.odd (shr_m mrs).
Proof.
  destruct mrs as [m r s]. cbn [shr_m]. intro Hm.
  destruct m as [| [p | p |] |]; try lia; cbn [shr_1 shr_m shr_r].
  - split; reflexivity.
  - split; [| reflexivity]. rewrite Pos2Z.inj_xI.
    apply Z.div_unique with (r := 1); lia.
  - split; [| reflexivity]. rewrite Pos2Z.inj_xO.
    apply Z.div_unique with (r := 0); lia.
  - split; reflexivity.
Qed.

Lemma iter_shr_1_m (k : nat) (mrs : shr_record) :
  0 <= shr_m mrs ->
  shr_m (Nat.iter k shr_1 mrs) = shr_m mrs / 2 ^ Z.of_nat k.
Proof.
  intro Hm. induction k as [| k IH].
  - cbn [Nat.iter]. change (2 ^ Z.of_nat 0) with 1. now rewrite Z.div_1_r.
  - cbn [Nat.iter nat_rect] in *.
    assert (Hk : 0 <= shr_m (Nat.iter k shr_1 mrs)).
    { rewrite IH. apply Z.div_pos; [lia | apply Z.pow_pos_nonneg; lia]. }
    destruct (shr_1_spec _ Hk) as [H _].
    change (nat_rect (fun _ => shr_record) mrs (fun _ => shr_1) k)
      with (Nat.iter k shr_1 mrs).
    rewrite H, IH, Nat2Z.inj_succ, Z.pow_succ_r by lia.
    rewrite Z.div_div by (try apply Z.pow_pos_nonneg; lia).
    f_equal. ring.
Qed.

Lemma iter_shr_1_r (k : nat) (mrs : shr_record) :
  0 <= shr_m mrs ->
  shr_r (Nat.iter (S k) shr_1 mrs) = Z.odd (shr_m mrs / 2 ^ Z.of_nat k).
Proof.
  intro Hm.
  assert (Hk : 0 <= shr_m (Nat.iter k shr_1 mrs)).
  { rewrite iter_shr_1_m by assumption.
    apply Z.div_pos; [lia | apply Z.pow_pos_nonneg; lia]. }
  destruct (shr_1_spec _ Hk) as [_ H].
  change (Nat.iter (S k) shr_1 mrs) with (shr_1 (Nat.iter k shr_1 mrs)).
  rewrite H, iter_shr_1_m by assumption. reflexivity.
Qed.

Lemma round_nearest_even_range (m : Z) (l : location) :
  m <= round_nearest_even m l <= m + 1.
Proof.
  destruct l as [| []]; cbn [round_nearest_even]; try destruct (Z.even m); lia.
Qed.

Lemma round_nearest_even_down (mrs : shr_record) :
  shr_r mrs = false ->
  round_nearest_even (shr_m mrs) (loc_of_shr_record mrs) = shr_m mrs.
Proof.
  destruct mrs as [m r s]. cbn [shr_r shr_m]. intros ->.
  destruct s; reflexivity.
Qed.

Lemma pow2_split (a b : Z) : 0 <= a -> 0 <= b -> 2 ^ (a + b) = 2 ^ a * 2 ^ b.
Proof. intros. apply Z.pow_add_r; assumption. Qed.

(** An integer of more than 53 bits is rounded to 53 bits: the result is a
    normal double with a positive exponent, or an infinity; it is a double
    whenever the integer is below [int_overflow]. *)
Lemma binary_round_big (s : bool) (p : positive) :
  54 <= Zpos (digits2_pos p) ->
  exists m' e',
    binary_round prec emax s p 0
    = (if e' <=? emax - prec then S754_finite s m' e' else S754_infinity s) /\
    Zpos (digits2_pos m') = 53 /\
    1 <= e' /\
    (Zpos p < int_overflow -> e' <= emax - prec).
Proof.
  intro HD. pose proof (digits2_bounds p) as [Hlo Hhi].
  set (D := Zpos (digits2_pos p)) in *.
  set (k := D - 53).
  assert (Hf : fexp prec emax (D + 0) = k)
    by (unfold k, fexp, emin, prec, emax; lia).
  unfold binary_round, shl_align. fold D. rewrite Hf.
  destruct (k - 0) as [| kq | kq] eqn:Ek0; try (unfold k in Ek0; lia).
  unfold binary_round_aux, shr_fexp. cbn [Zdigits2]. fold D. rewrite Hf, Ek0.
  cbn [shr shr_record_of_loc]. rewrite iter_pos_nat.
  set (mrs1 := Nat.iter (Pos.to_nat kq) shr_1
                 {| shr_m := Zpos p; shr_r := false; shr_s := false |}).
  assert (Hkq : Z.of_nat (Pos.to_nat kq) = k) by (rewrite positive_nat_Z; lia).
  assert (Hk1 : 1 <= k) by (unfold k; lia).
  assert (Hm1 : shr_m mrs1 = Zpos p / 2 ^ k).
  { unfold mrs1. rewrite iter_shr_1_m by (cbn; lia). cbn [shr_m].
    rewrite Hkq. reflexivity. }
  assert (Hpk : 0 < 2 ^ k) by (apply Z.pow_pos_nonneg; lia).
  assert (HD1 : 2 ^ (D - 1) = 2 ^ 52 * 2 ^ k).
  { rewrite <- pow2_split by lia. f_equal. unfold k. lia. }
  assert (HD2 : 2 ^ D = 2 ^ 53 * 2 ^ k).
  { rewrite <- pow2_split by lia. f_equal. unfold k. lia. }
  assert (Hm1lo : 2 ^ 52 <= shr_m mrs1).
  { rewrite Hm1. apply Z.div_le_lower_bound; lia. }
  assert (Hm1hi : shr_m mrs1 < 2 ^ 53).
  { rewrite Hm1. apply Z.div_lt_upper_bound; lia. }
  pose proof (round_nearest_even_range (shr_m mrs1) (loc_of_shr_record mrs1)) as Hrne.
  set (m2 := round_nearest_even (shr_m mrs1) (loc_of_shr_record mrs1)) in *.
  replace (0 + Zpos kq) with k by lia.
  destruct m2 as [| q2 |] eqn:Em2; try lia.
  cbn [Zdigits2 shr_record_of_loc].
  destruct (Z.lt_ge_cases (Zpos q2) (2 ^ 53)) as [Hlt | Hge].
  - assert (Hd2 : Zpos (digits2_pos q2) = 53) by (apply digits2_unique; lia).
    rewrite Hd2.
    replace (fexp prec emax (53 + k) - k) with 0
      by (unfold fexp, emin, prec, emax; lia).
    cbn [shr shr_m]. exists q2, k. repeat split; try assumption.
    intro HB. unfold int_overflow in HB.
    assert (HD3 : D - 1 < 1024).
    { apply (Z.pow_lt_mono_r_iff 2); lia. }
    unfold k, emax, prec. lia.
  - assert (Hq2 : q2 = 9007199254740992%positive) by lia.
    subst q2.
    replace (fexp prec emax (Zpos (digits2_pos 9007199254740992) + k) - k) with 1
      by (change (Zpos (digits2_pos 9007199254740992)) with 54;
          unfold fexp, emin, prec, emax; lia).
    cbn [shr iter_pos shr_1 shr_m]. exists 4503599627370496%positive, (k + 1).
    repeat split; try reflexivity; try lia.
    intro HB. unfold int_overflow in HB.
    assert (HD3 : D - 1 < 1024).
    { apply (Z.pow_lt_mono_r_iff 2); lia. }
    destruct (Z.eq_dec D 1024) as [E | E]; [| unfold k, emax, prec; lia].
    exfalso.
    assert (Hk : k = 971) by (unfold k; lia).
    assert (Hr : shr_r mrs1 = true).
    { destruct (shr_r mrs1) eqn:Er; [reflexivity |].
      pose proof (round_nearest_even_down mrs1 Er) as Hdn.
      fold m2 in Hdn. rewrite Em2 in Hdn. lia. }
    assert (Hodd : shr_r mrs1 = Z.odd (Zpos p / 2 ^ 970)).
    { unfold mrs1. replace (Pos.to_nat kq) with (S 970) by lia.
      rewrite iter_shr_1_r by (cbn; lia). reflexivity. }
    rewrite Hodd in Hr.
    assert (Hm1eq : Zpos p / 2 ^ 971 = 2 ^ 53 - 1) by (rewrite Hk in Hm1; lia).
    assert (Hhalf : Zpos p / 2 ^ 970 / 2 = Zpos p / 2 ^ 971).
    { rewrite Z.div_div by lia. reflexivity. }
    assert (Hup : Zpos p / 2 ^ 970 < 2 ^ 54 - 1).
    { apply Z.div_lt_upper_bound; lia. }
    pose proof (Z.div_mod (Zpos p / 2 ^ 970) 2 ltac:(lia)) as Hdm.
    pose proof (Z.mod_pos_bound (Zpos p / 2 ^ 970) 2 ltac:(lia)) as Hmb.
    assert (Heven : Zpos p / 2 ^ 970 = 2 * (2 ^ 53 - 1)) by lia.
    rewrite Heven, Z.odd_mul in Hr. discriminate.
Qed.

(** The double of a non-zero integer below [int_overflow]: a normal double,
    exact when the integer has at most 53 bits. *)
Lemma float_of_int_normal (z : Z) :
  z <> 0 -> Z.abs z < int_overflow ->
  exists m e,
    float_of_int z = Ok (S754_finite (z <? 0) m e) /\
    bounded prec emax m e = true /\
    ((e <= 0 /\ Zpos m = Z.abs z * 2 ^ (- e)) \/ (1 <= e /\ 2 ^ 53 <= Z.abs z)).
Proof.
  intros Hz HB. destruct (Z.lt_ge_cases (Z.abs z) (2 ^ 53)) as [Hs | Hb].
  - rewrite float_of_int_small by assumption.
    set (L := Z.log2 (Z.abs z)).
    assert (HL : 0 <= L < 53).
    { split; [apply Z.log2_nonneg | apply Z.log2_lt_pow2; lia]. }
    assert (Hp : 0 < Z.abs z * 2 ^ (52 - L)).
    { apply Z.mul_pos_pos; [lia | apply Z.pow_pos_nonneg; lia]. }
    eexists. eexists. split; [reflexivity |]. split.
    + unfold bounded, canonical_mantissa.
      assert (Hd : Zpos (digits2_pos (Z.to_pos (Z.abs z * 2 ^ (52 - L)))) = 53).
      { destruct (Z.abs z) as [| a |] eqn:Ea; try lia.
        pose proof (digits2_mul_pow2 a (52 - L) ltac:(lia)) as H.
        destruct (Zpos a * 2 ^ (52 - L)) as [| q |] eqn:Eq; try lia.
        cbn [Zdigits2 Z.to_pos] in *. rewrite H, digits2_log2. unfold L. lia. }
      rewrite Hd. apply andb_true_iff. split.
      * apply Z.eqb_eq. unfold fexp, emin, prec, emax. lia.
      * apply Z.leb_le. unfold prec, emax. lia.
    + left. split; [lia |]. rewrite Z2Pos.id by assumption. do 2 f_equal. lia.
  - destruct z as [| p | p]; [lia | |]; cbn [Z.abs] in *.
    + assert (HD : 54 <= Zpos (digits2_pos p)).
      { rewrite digits2_log2.
        assert (53 <= Z.log2 (Zpos p)) by (apply Z.log2_le_pow2; lia). lia. }
      destruct (binary_round_big false p HD) as [m' [e' [Hr [Hd [He Hov]]]]].
      specialize (Hov HB). unfold float_of_int, binary_normalize. rewrite Hr.
      destruct (Z.leb_spec e' (emax - prec)); [| lia].
      exists m', e'. split; [reflexivity |]. split; [| right; lia].
      unfold bounded, canonical_mantissa. rewrite Hd. apply andb_true_iff. split.
      * apply Z.eqb_eq. unfold fexp, emin, prec, emax. lia.
      * apply Z.leb_le. assumption.
    + assert (HD : 54 <= Zpos (digits2_pos p)).
      { rewrite digits2_log2.
        assert (53 <= Z.log2 (Zpos p)) by (apply Z.log2_le_pow2; lia). lia. }
      destruct (binary_round_big true p HD) as [m' [e' [Hr [Hd [He Hov]]]]].
      specialize (Hov HB). unfold float_of_int, binary_normalize. rewrite Hr.
      destruct (Z.leb_spec e' (emax - prec)); [| lia].
      exists m', e'. split; [reflexivity |]. split; [| right; lia].
      unfold bounded, canonical_mantissa. rewrite Hd. apply andb_true_iff. split.
      * apply Z.eqb_eq. unfold fexp, emin, prec, emax. lia.
      * apply Z.leb_le. assumption.
Qed.

(** The integer behind a mantissa that is a multiple of a power of two. *)
Lemma integral_value_scaled (s : bool) (m : positive) (a j c : Z) :
  0 <= j -> 0 <= c -> Zpos m = a * 2 ^ j ->
  integral_value (S754_finite s m (c - j)) = Some (cond_Zopp s (a * 2 ^ c)).
Proof.
  intros Hj Hc Hm. cbn [integral_value].
  destruct (Z.leb_spec 0 (c - j)) as [H | H].
  - do 2 f_equal. rewrite Hm, <- Z.mul_assoc, <- pow2_split by lia.
    do 2 f_equal. lia.
  - assert (Hsplit : Zpos m = a * 2 ^ c * 2 ^ (- (c - j))).
    { rewrite Hm, <- Z.mul_assoc, <- pow2_split by lia. do 2 f_equal. lia. }
    assert (Hp : 0 < 2 ^ (- (c - j))) by (apply Z.pow_pos_nonneg; lia).
    rewrite Hsplit, Z.mod_mul, Z.div_mul by lia. reflexivity.
Qed.

Lemma integral_value_large (s : bool) (m : positive) (e : Z) :
  0 <= e -> integral_value (S754_finite s m e) = Some (cond_Zopp s (Zpos m * 2 ^ e)).
Proof.
  intro H. cbn [integral_value]. destruct (Z.leb_spec 0 e); [reflexivity | lia].
Qed.

(** ** Powers of two *)

Lemma exp2_underflow (k : Z) : k < -1074 -> exp2 k = S754_zero false.
Proof.
  intro H. unfold exp2.
  destruct (Z.leb_spec 1024 k); [lia |].
  destruct (Z.ltb_spec k (-1074)); [reflexivity | lia].
Qed.

Lemma exp2_no_overflow (k : Z) :
  k < 1024 ->
  match exp2 k with
  | S754_infinity _ => Raise OverflowError
  | _ => Ok (exp2 k)
  end = Ok (exp2 k).
Proof.
  intro H. unfold exp2.
  destruct (Z.leb_spec 1024 k); [lia |].
  destruct (Z.ltb_spec k (-1074)); [reflexivity |].
  destruct (Z.ltb_spec k (-1022)); reflexivity.
Qed.

(** [exp2] is the correctly rounded power of two of the library. *)
Lemma exp2_ldexp (k : Z) :
  -1200 <= k <= 1100 -> exp2 k = SFldexp prec emax f_one k.
Proof.
  intro H. apply float_beq_eq.
  apply (Z_range_check (fun k => float_beq (exp2 k) (SFldexp prec emax f_one k))
           (-1200) 2301); [vm_compute; reflexivity | lia].
Qed.

(** A double with an exponent above the least one is normal. *)
Lemma bounded_normal (m : positive) (e : Z) :
  bounded prec emax m e = true -> -1074 < e ->
  Zpos (digits2_pos m) = 53 /\ 2 ^ 52 <= Zpos m.
Proof.
  intros Hb He. unfold bounded, canonical_mantissa in Hb.
  apply andb_true_iff in Hb. destruct Hb as [Hc _]. apply Z.eqb_eq in Hc.
  unfold fexp, emin, prec, emax in Hc.
  assert (Hd : Zpos (digits2_pos m) = 53) by lia. split; [exact Hd |].
  pose proof (digits2_bounds m) as [Hlo _]. rewrite Hd in Hlo. exact Hlo.
Qed.

(** [2.0 ** x] at a float that stands for the integer [k]. *)
Lemma pow_two_integral (pow_two_frac : float -> float) (x : float) (k : Z) :
  integral_value x = Some k -> k < 1024 ->
  pow_two pow_two_frac x = Ok (exp2 k).
Proof.
  intros Hx Hk. destruct x as [s | s | | s m e]; try discriminate.
  - injection Hx as <-. reflexivity.
  - cbn [pow_two]. rewrite Hx. apply exp2_no_overflow, Hk.
Qed.

(** [2.0 ** -i] is the double nearest to [2 ^ -i]. *)
Lemma pow_two_neg_index (pow_two_frac : float -> float) (i : Z) :
  0 <= i < int_overflow ->
  pow_two_int pow_two_frac (- i) = Ok (exp2 (- i)).
Proof.
  intro Hi. unfold pow_two_int.
  destruct (Z.eq_dec i 0) as [-> | Hnz]; [reflexivity |].
  destruct (float_of_int_normal (- i) ltac:(lia) ltac:(lia))
    as [m [e [Hf [Hb [[He Hm] | [He Hbig]]]]]]; rewrite Hf; cbn [bind].
  - apply pow_two_integral; [| lia].
    replace (- i <? 0) with true by (symmetry; apply Z.ltb_lt; lia).
    replace e with (0 - - e) by lia.
    rewrite (integral_value_scaled true m (Z.abs (- i)) (- e) 0) by (lia || exact Hm).
    cbn [cond_Zopp]. f_equal. change (2 ^ 0) with 1. lia.
  - replace (- i <? 0) with true by (symmetry; apply Z.ltb_lt; lia).
    destruct (bounded_normal m e Hb ltac:(lia)) as [_ Hm52].
    assert (Hp : 0 < 2 ^ e) by (apply Z.pow_pos_nonneg; lia).
    assert (Hv : 2 ^ 52 <= Zpos m * 2 ^ e) by nia.
    rewrite (pow_two_integral _ _ _ (integral_value_large true m e ltac:(lia)))
      by (cbn [cond_Zopp]; lia).
    cbn [cond_Zopp]. rewrite (exp2_underflow (- i)) by lia.
    rewrite exp2_underflow by lia. reflexivity.
Qed.

(** [2.0 ** (-2.0 * i)] is the double nearest to [2 ^ (-2i)]. *)
Lemma pow_two_gain_index (pow_two_frac : float -> float) (i : Z) :
  0 <= i < int_overflow ->
  (e <- fmul_int f_minus_two i ;; pow_two pow_two_frac e) = Ok (exp2 (- 2 * i)).
Proof.
  intro Hi. unfold fmul_int.
  destruct (Z.eq_dec i 0) as [-> | Hnz]; [reflexivity |].
  destruct (float_of_int_normal i ltac:(lia) ltac:(lia))
    as [m [e [Hf [Hb [[He Hm] | [He Hbig]]]]]]; rewrite Hf; cbn [bind];
    replace (i <? 0) with false by (symmetry; apply Z.ltb_ge; lia).
  - change f_minus_two with (S754_finite true 4503599627370496 (1 - 52)).
    rewrite fmul_pow2_l by (assumption || lia).
    assert (Hc := Hb). unfold bounded, canonical_mantissa in Hc.
    apply andb_true_iff in Hc. destruct Hc as [Hc Hle].
    apply Z.eqb_eq in Hc. apply Z.leb_le in Hle.
    unfold fexp, emin, prec, emax in Hc, Hle.
    pose proof (digits2_bounds m) as [Hdlo Hdhi].
    assert (Hd : Zpos (digits2_pos m) = 53).
    { destruct (Z.eq_dec (Zpos (digits2_pos m)) 53) as [E | E]; [exact E |].
      exfalso.
      assert (He' : e = -1074) by lia.
      assert (Hlt : Zpos (digits2_pos m) < 53) by lia.
      assert (Hm53 : Zpos m < 2 ^ 52).
      { eapply Z.lt_le_trans; [exact Hdhi |]. apply Z.pow_le_mono_r; lia. }
      rewrite Hm, He' in Hm53.
      assert (2 ^ 52 < 2 ^ (- -1074)) by (apply Z.pow_lt_mono_r; lia).
      assert (1 <= Z.abs i) by lia. nia. }
    rewrite Hd.
    replace (fexp prec emax (53 + 52 + (e + (1 - 52))) - (e + (1 - 52))) with 52
      by (unfold fexp, emin, prec, emax; lia).
    destruct (Z.leb_spec (e + (1 - 52) + 52) (emax - prec)) as [_ | Hgt];
      [| unfold emax, prec in Hgt; lia].
    replace (52 - 52) with 0 by lia. change (2 ^ 0) with 1.
    rewrite Z.mul_1_r. cbn [Z.to_pos xorb].
    apply pow_two_integral; [| lia].
    replace (e + (1 - 52) + 52) with (1 - - e) by lia.
    rewrite (integral_value_scaled true m (Z.abs i) (- e) 1) by (lia || exact Hm).
    cbn [cond_Zopp]. f_equal. change (2 ^ 1) with 2. lia.
  - change f_minus_two with (S754_finite true 4503599627370496 (1 - 52)).
    rewrite fmul_pow2_l by (assumption || lia).
    cbn [xorb].
    destruct (bounded_normal m e Hb ltac:(lia)) as [Hd Hm52].
    rewrite Hd.
    replace (fexp prec emax (53 + 52 + (e + (1 - 52))) - (e + (1 - 52))) with 52
      by (unfold fexp, emin, prec, emax; lia).
    replace (52 - 52) with 0 by lia. change (2 ^ 0) with 1.
    rewrite Z.mul_1_r. cbn [Z.to_pos].
    rewrite (exp2_underflow (- 2 * i)) by lia.
    destruct (Z.leb_spec (e + (1 - 52) + 52) (emax - prec)); [| reflexivity].
    assert (Hp : 0 < 2 ^ (e + (1 - 52) + 52))
      by (apply Z.pow_pos_nonneg; lia).
    assert (Hv : 2 ^ 52 <= Zpos m * 2 ^ (e + (1 - 52) + 52)) by nia.
    rewrite (pow_two_integral _ _ _
               (integral_value_large true m (e + (1 - 52) + 52) ltac:(lia)))
      by (cbn [cond_Zopp]; lia).
    cbn [cond_Zopp]. apply f_equal, exp2_underflow. lia.
Qed.

(** ** The table generator *)

(** The factor of the gain never raises: the argument of the square root is
    between 1 and 2. *)
Lemma gain_factor_ok (k : Z) :
  k <= 0 ->
  (r <- math_sqrt (fadd f_one (exp2 k)) ;; fdiv f_one r) = Ok (gain_factor k).
Proof.
  intro Hk. destruct (Z.lt_ge_cases k (-1074)) as [Hu | Hr].
  - unfold gain_factor. rewrite exp2_underflow by assumption. reflexivity.
  - pose (P := fun k => match (r <- math_sqrt (fadd f_one (exp2 k)) ;; fdiv f_one r) with
                        | Ok d => float_beq d (gain_factor k)
                        | Raise _ => false
                        end).
    assert (H : P k = true).
    { apply (Z_range_check P (-1074) 1075); [vm_compute; reflexivity | lia]. }
    unfold P in H.
    destruct (r <- math_sqrt (fadd f_one (exp2 k)) ;; fdiv f_one r) as [d | e];
      [| discriminate].
    apply float_beq_eq in H. congruence.
Qed.

Lemma lut_step_ok (math_atan pow_two_frac : float -> float) (i : Z)
  (angles : list float) (K : float) :
  0 <= i < int_overflow ->
  lut_step math_atan pow_two_frac i (angles, K)
  = Ok (angles ++ [math_atan (exp2 (- i))], fmul K (gain_factor (- 2 * i))).
Proof.
  intro Hi. unfold lut_step.
  rewrite pow_two_neg_index by assumption. cbn [bind].
  pose proof (pow_two_gain_index pow_two_frac i Hi) as Hg.
  destruct (fmul_int f_minus_two i) as [e | ?]; cbn [bind] in Hg |- *;
    [| discriminate].
  rewrite Hg. cbn [bind].
  pose proof (gain_factor_ok (- 2 * i) ltac:(lia)) as Hk.
  destruct (math_sqrt (fadd f_one (exp2 (- 2 * i)))) as [r | ?];
    cbn [bind] in Hk |- *; [| discriminate].
  rewrite Hk. reflexivity.
Qed.

Lemma Z_range_cons (lo : Z) (cnt : nat) :
  Z_range lo (S cnt) = lo :: Z_range (lo + 1) cnt.
Proof.
  unfold Z_range. cbn [seq map]. f_equal; [lia |].
  rewrite <- seq_shift, map_map. apply map_ext. intro k. lia.
Qed.

Lemma Z_range_length (lo : Z) (cnt : nat) : List.length (Z_range lo cnt) = cnt.
Proof. unfold Z_range. rewrite length_map, length_seq. reflexivity. Qed.

Lemma Z_range_nth (lo : Z) (cnt k : nat) :
  (k < cnt)%nat -> nth_error (Z_range lo cnt) k = Some (lo + Z.of_nat k).
Proof.
  intro H. unfold Z_range. rewrite nth_error_map.
  rewrite nth_error_nth' with (d := 0%nat) by (rewrite length_seq; exact H).
  rewrite seq_nth by exact H. reflexivity.
Qed.

(** The loop over [range(lo, lo + cnt)] below [int_overflow]. *)
Lemma lut_loop_ok (math_atan pow_two_frac : float -> float) (cnt : nat) :
  forall (lo : Z) (angles : list float) (K : float),
  0 <= lo -> lo + Z.of_nat cnt <= int_overflow ->
  lut_loop math_atan pow_two_frac cnt lo (angles, K)
  = Ok (angles ++ map (fun i => math_atan (exp2 (- i))) (Z_range lo cnt),
        fold_left (fun K i => fmul K (gain_factor (- 2 * i))) (Z_range lo cnt) K).
Proof.
  induction cnt as [| cnt IH]; intros lo angles K Hlo Hhi.
  - cbn. rewrite app_nil_r. reflexivity.
  - cbn [lut_loop]. rewrite lut_step_ok by lia. cbn [bind].
    rewrite IH by lia. rewrite Z_range_cons. cbn [map fold_left].
    rewrite <- app_assoc. reflexivity.
Qed.

Lemma lut_loop_app (math_atan pow_two_frac : float -> float) (c1 c2 : nat) :
  forall (lo : Z) (st : list float * float),
  lut_loop math_atan pow_two_frac (c1 + c2) lo st
  = (st' <- lut_loop math_atan pow_two_frac c1 lo st ;;
     lut_loop math_atan pow_two_frac c2 (lo + Z.of_nat c1) st').
Proof.
  induction c1 as [| c1 IH]; intros lo st.
  - cbn [Nat.add lut_loop bind]. f_equal. change (Z.of_nat 0) with 0. lia.
  - cbn [Nat.add lut_loop].
    destruct (lut_step math_atan pow_two_frac lo st) as [st' | e]; cbn [bind];
      [| reflexivity].
    rewrite IH.
    replace (lo + Z.of_nat (S c1)) with (lo + 1 + Z.of_nat c1) by lia.
    reflexivity.
Qed.

Lemma int_overflow_pos : 0 < int_overflow.
Proof. unfold int_overflow. lia. Qed.

Lemma generate_cordic_lut_ok (math_atan pow_two_frac : float -> float) (n_iter : Z) :
  n_iter <= int_overflow ->
  generate_cordic_lut math_atan pow_two_frac n_iter
  = Ok (angle_table math_atan n_iter, gain n_iter).
Proof.
  intro H. unfold generate_cordic_lut, angle_table, gain.
  pose proof int_overflow_pos as H0.
  rewrite lut_loop_ok; [reflexivity | lia | lia].
Qed.

Lemma float_of_int_overflow : float_of_int (- int_overflow) = Raise OverflowError.
Proof. vm_compute. reflexivity. Qed.

(** Where the closed form ends: the model, whose lists are unbounded, would
    reach the index [int_overflow], which converts to no double. No run gets
    there (a table of that length fits in no memory); the lemma serves to
    invert a call that returns. *)
Lemma generate_cordic_lut_overflow (math_atan pow_two_frac : float -> float)
  (n_iter : Z) :
  int_overflow < n_iter ->
  generate_cordic_lut math_atan pow_two_frac n_iter = Raise OverflowError.
Proof.
  intro H. unfold generate_cordic_lut.
  pose proof int_overflow_pos as H0.
  assert (Hsplit : Z.to_nat n_iter
                   = (Z.to_nat int_overflow + S (Z.to_nat (n_iter - int_overflow - 1)))%nat)
    by lia.
  rewrite Hsplit, lut_loop_app, lut_loop_ok by lia.
  unfold bind at 1.
  generalize (Z.to_nat (n_iter - int_overflow - 1)) as c. intro c.
  rewrite Z.add_0_l, Z2Nat.id by lia.
  generalize (Z_range 0 (Z.to_nat int_overflow)) as r. intro r.
  cbn [lut_loop]. unfold lut_step, pow_two_int.
  rewrite float_of_int_overflow. reflexivity.
Qed.

(** C9. With [n_iter = 0] the generator does not fail: the table is empty
    and the gain is the double 1.0. *)
Theorem generate_cordic_lut_zero (math_atan pow_two_frac : float -> float) :
  generate_cordic_lut math_atan pow_two_frac 0 = Ok ([], f_one) /\
  (F2Q f_one == 1)%Q.
Proof. split; reflexivity. Qed.

(** C3. For [n_iter >= 1] the generator returns the table and the gain,
    without raising: entry [i] is [atan(2^-i)] for [i = 0 .. n_iter - 1],
    and the gain is the product of [1/sqrt(1 + 2^(-2i))] taken from the left,
    starting at 1.0, all in double arithmetic. The function has no state
    besides its result. The bound [n_iter <= int_overflow] is the range in
    which the loop index converts to a double; every table that fits in
    memory is far inside it. *)
Theorem generate_cordic_lut_spec (math_atan pow_two_frac : float -> float)
  (n_iter : Z) :
  1 <= n_iter <= int_overflow ->
  exists angles K,
    generate_cordic_lut math_atan pow_two_frac n_iter = Ok (angles, K) /\
    Z.of_nat (List.length angles) = n_iter /\
    (forall i, 0 <= i < n_iter ->
       nth_error angles (Z.to_nat i) = Some (math_atan (exp2 (- i)))) /\
    K = fold_left
          (fun K i =>
             fmul K (SFdiv prec emax f_one
                       (SFsqrt prec emax (fadd f_one (exp2 (- 2 * i))))))
          (Z_range 0 (Z.to_nat n_iter)) f_one.
Proof.
  intros [Hlo Hhi]. exists (angle_table math_atan n_iter), (gain n_iter).
  split; [apply generate_cordic_lut_ok, Hhi |]. split; [| split].
  - unfold angle_table. rewrite length_map, Z_range_length. lia.
  - intros i Hi. unfold angle_table.
    rewrite nth_error_map, Z_range_nth by lia.
    cbn [option_map]. do 3 f_equal. lia.
  - reflexivity.
Qed.

Lemma generate_cordic_lut_spec_witness :
  exists angles K,
    generate_cordic_lut atan_sample pow_frac_sample 4 = Ok (angles, K) /\
    Z.of_nat (List.length angles) = 4 /\
    (forall i, 0 <= i < 4 ->
       nth_error angles (Z.to_nat i) = Some (atan_sample (exp2 (- i)))) /\
    K = fold_left
          (fun K i =>
             fmul K (SFdiv prec emax f_one
                       (SFsqrt prec emax (fadd f_one (exp2 (- 2 * i))))))
          (Z_range 0 (Z.to_nat 4)) f_one.
Proof.
  apply (generate_cordic_lut_spec atan_sample pow_frac_sample 4).
  split; [lia | unfold int_overflow; lia].
Defined.

(** The run of the specification's example: four turns. *)
Lemma generate_cordic_lut_sample :
  match generate_cordic_lut atan_sample pow_frac_sample 4 with
  | Ok (angles, K) =>
      map format_12f angles
      = ["0.785398163397"; "0.463647609001"; "0.244978663127";
         "0.124354994547"]%string /\
      format_12f K = "0.608833912518"%string
  | Raise _ => False
  end.
Proof. vm_compute. split; reflexivity. Qed.

(** The default run of sixteen turns: the gain as [main] prints it. *)
Example generate_cordic_lut_default :
  match generate_cordic_lut atan_sample pow_frac_sample 16 with
  | Ok (angles, K) =>
      List.length angles = 16%nat /\ format_12f K = "0.607252935103"%string
  | Raise _ => False
  end.
Proof. vm_compute. split; reflexivity. Qed.

(** ** The order of doubles *)

Ltac sf_order :=
  unfold SFleb, SFltb, SFcompare;
  repeat match goal with
         | |- context [Z.compare ?x ?y] => destruct (Z.compare_spec x y)
         | |- context [Pos.compare_cont Eq ?x ?y] =>
             change (Pos.compare_cont Eq x y) with (Pos.compare x y);
             destruct (Pos.compare_spec x y)
         end;
  cbn; intros; try discriminate; try reflexivity; try lia.

Lemma SFle_lt_trans (a b c : float) :
  SFleb a b = true -> SFltb b c = true -> SFltb a c = true.
Proof.
  destruct a as [[] | [] | | [] ma ea], b as [[] | [] | | [] mb eb],
    c as [[] | [] | | [] mc ec]; sf_order.
Qed.

Lemma SFle_trans (a b c : float) :
  SFleb a b = true -> SFleb b c = true -> SFleb a c = true.
Proof.
  destruct a as [[] | [] | | [] ma ea], b as [[] | [] | | [] mb eb],
    c as [[] | [] | | [] mc ec]; sf_order.
Qed.

Lemma SFlt_le (a b : float) : SFltb a b = true -> SFleb a b = true.
Proof.
  unfold SFltb, SFleb. destruct (SFcompare a b) as [[] |]; try discriminate; reflexivity.
Qed.

Lemma SFlt_trans (a b c : float) :
  SFltb a b = true -> SFltb b c = true -> SFltb a c = true.
Proof. intros H1 H2. eapply SFle_lt_trans; [apply SFlt_le, H1 | exact H2]. Qed.

Lemma angle_table_nth (math_atan : float -> float) (n_iter : Z) (k : nat) :
  Z.of_nat k < n_iter ->
  nth_error (angle_table math_atan n_iter) k
  = Some (math_atan (exp2 (- Z.of_nat k))).
Proof.
  intro H. unfold angle_table. rewrite nth_error_map, Z_range_nth by lia.
  reflexivity.
Qed.

Lemma angle_table_length (math_atan : float -> float) (n_iter : Z) :
  List.length (angle_table math_atan n_iter) = Z.to_nat n_iter.
Proof. unfold angle_table. rewrite length_map. apply Z_range_length. Qed.

Lemma adjacent_decreasing (l : list float) :
  (forall k a b, nth_error l k = Some a -> nth_error l (S k) = Some b ->
                 SFltb b a = true) ->
  strictly_decreasing l.
Proof.
  intros Hadj i j a b Hij Ha Hb.
  replace j with (S i + (j - S i))%nat in Hb by lia.
  remember (j - S i)%nat as d eqn:Ed. clear Ed Hij j. revert b Hb.
  induction d as [| d IH]; intros b Hb.
  - rewrite Nat.add_0_r in Hb. exact (Hadj i a b Ha Hb).
  - replace (S i + S d)%nat with (S (S i + d)) in Hb by lia.
    destruct (nth_error l (S i + d)) as [c |] eqn:Ec.
    + eapply SFlt_trans; [exact (Hadj _ c b Ec Hb) | apply IH; reflexivity].
    + apply nth_error_None in Ec.
      assert (Hnone : nth_error l (S (S i + d)) = None)
        by (apply nth_error_None; lia).
      congruence.
Qed.

(** C6. For [1 <= n_iter <= 1075] the table has [n_iter] entries, strictly
    decreasing and all in [(0, pi/4]] (at most the double nearest to pi/4,
    which is below pi/4), on a platform whose arctangent satisfies
    [x/2 < atan x <= x] at the arguments [x = 2^-i] of the table and gives
    at most that double at 1.0. *)
Theorem angle_table_decreasing (math_atan pow_two_frac : float -> float)
  (n_iter : Z) :
  (forall i, 0 <= i <= 1074 ->
     SFltb (exp2 (- i - 1)) (math_atan (exp2 (- i))) = true /\
     SFleb (math_atan (exp2 (- i))) (exp2 (- i)) = true) ->
  SFleb (math_atan f_one) pi_over_4 = true ->
  1 <= n_iter <= 1075 ->
  exists angles K,
    generate_cordic_lut math_atan pow_two_frac n_iter = Ok (angles, K) /\
    Z.of_nat (List.length angles) = n_iter /\
    strictly_decreasing angles /\
    Forall (fun a => SFltb (S754_zero false) a = true /\
                     SFleb a pi_over_4 = true) angles.
Proof.
  intros Hbr Hq Hn. exists (angle_table math_atan n_iter), (gain n_iter).
  split; [| split; [| split]].
  - apply generate_cordic_lut_ok. pose proof int_overflow_pos.
    unfold int_overflow in *. lia.
  - rewrite angle_table_length. lia.
  - apply adjacent_decreasing. intros k a b Ha Hb.
    assert (Hk : Z.of_nat (S k) < n_iter).
    { assert (H : (S k < List.length (angle_table math_atan n_iter))%nat)
        by (apply (proj1 (nth_error_Some (angle_table math_atan n_iter) (S k)));
            intro E; exact (eq_ind (Some b) (fun o => match o with Some _ => True | None => False end)
                              I None (eq_trans (eq_sym Hb) E))).
      rewrite angle_table_length in H. lia. }
    rewrite angle_table_nth in Ha, Hb by lia.
    injection Ha as <-. injection Hb as <-.
    destruct (Hbr (Z.of_nat k) ltac:(lia)) as [Hlo _].
    destruct (Hbr (Z.of_nat (S k)) ltac:(lia)) as [_ Hhi].
    replace (- Z.of_nat k - 1) with (- Z.of_nat (S k)) in Hlo by lia.
    eapply SFle_lt_trans; eassumption.
  - apply Forall_forall. intros a Ha.
    apply In_nth_error in Ha. destruct Ha as [k Hk].
    assert (Hlt : Z.of_nat k < n_iter).
    { assert (H : (k < List.length (angle_table math_atan n_iter))%nat)
        by (apply (proj1 (nth_error_Some (angle_table math_atan n_iter) k));
            intro E; exact (eq_ind (Some a) (fun o => match o with Some _ => True | None => False end)
                              I None (eq_trans (eq_sym Hk) E))).
      rewrite angle_table_length in H. lia. }
    rewrite angle_table_nth in Hk by assumption. injection Hk as <-.
    destruct (Hbr (Z.of_nat k) ltac:(lia)) as [Hlo Hhi]. split.
    + eapply SFle_lt_trans; [| exact Hlo].
      apply (Z_range_check
               (fun i => SFleb (S754_zero false) (exp2 (- i - 1))) 0 1075);
        [vm_compute; reflexivity | lia].
    + destruct k as [| k]; [exact Hq |].
      eapply SFle_trans; [exact Hhi |].
      apply (Z_range_check (fun i => SFleb (exp2 (- i)) pi_over_4) 1 1074);
        [vm_compute; reflexivity | lia].
Qed.

Lemma atan_sample_bracket (i : Z) :
  0 <= i <= 1074 ->
  SFltb (exp2 (- i - 1)) (atan_sample (exp2 (- i))) = true /\
  SFleb (atan_sample (exp2 (- i))) (exp2 (- i)) = true.
Proof.
  intro H. apply andb_true_iff.
  apply (Z_range_check
           (fun i => SFltb (exp2 (- i - 1)) (atan_sample (exp2 (- i)))
                     && SFleb (atan_sample (exp2 (- i))) (exp2 (- i))) 0 1075);
    [vm_compute; reflexivity | lia].
Qed.

(** C6, the limit: from index 1075 on the argument [2.0 ** -i] is 0.0, so
    the table of 1077 turns ends with two equal entries, whatever the
    arctangent of the platform is. *)
Lemma angle_table_repeats :
  ~ (exists (math_atan pow_two_frac : float -> float) angles K,
       generate_cordic_lut math_atan pow_two_frac 1077 = Ok (angles, K) /\
       strictly_decreasing angles).
Proof.
  intros [math_atan [pow_two_frac [angles [K [Hgen Hdec]]]]].
  rewrite generate_cordic_lut_ok in Hgen
    by (pose proof int_overflow_pos; unfold int_overflow in *; lia).
  apply (f_equal (fun r => match r with
                           | Ok (l, _) => l
                           | Raise _ => []
                           end)) in Hgen.
  change (angle_table math_atan 1077 = angles) in Hgen. subst angles.
  assert (H : SFltb (math_atan (S754_zero false)) (math_atan (S754_zero false)) = true).
  { apply (Hdec 1075%nat 1076%nat); [lia | |];
      rewrite angle_table_nth by lia; reflexivity. }
  unfold SFltb in H.
  destruct (math_atan (S754_zero false)) as [[] | [] | | [] m e]; cbn in H;
    try discriminate;
    rewrite Z.compare_refl in H;
    change (Pos.compare_cont Eq m m) with (Pos.compare m m) in H;
    rewrite Pos.compare_refl in H; discriminate.
Qed.

Lemma angle_table_decreasing_witness :
  exists angles K,
    generate_cordic_lut atan_sample pow_frac_sample 1075 = Ok (angles, K) /\
    Z.of_nat (List.length angles) = 1075 /\
    strictly_decreasing angles /\
    Forall (fun a => SFltb (S754_zero false) a = true /\
                     SFleb a pi_over_4 = true) angles.
Proof.
  apply (angle_table_decreasing atan_sample pow_frac_sample 1075
           atan_sample_bracket eq_refl).
  lia.
Defined.

(** ** The encoder on angle tables and inside a run *)

Lemma SFleb_finite_pos (m m' : positive) (e e' : Z) :
  SFleb (S754_finite false m e) (S754_finite false m' e') = true ->
  e < e' \/ (e = e' /\ Zpos m <= Zpos m').
Proof.
  unfold SFleb, SFcompare.
  destruct (Z.compare_spec e e') as [E | E | E]; try discriminate.
  - rewrite Pos.compare_cont_spec. cbn [Pos.switch_Eq].
    destruct (Pos.compare_spec m m') as [C | C | C]; try discriminate;
      intros _; right; split; try assumption; lia.
  - intros _. left. assumption.
Qed.

(** Every double of magnitude at most 1.0, as the arctangents of the table
    are, is scalable for every format of the encoder. *)
Lemma scalable_unit (a : float) (n : Z) :
  double a -> is_finite a = true ->
  SFleb (SFabs a) f_one = true -> n <= 1023 ->
  scalable n a = true.
Proof.
  intros Ha Hf Hle Hn. destruct a as [s | s | | s m e]; try discriminate.
  - reflexivity.
  - unfold double in Ha. cbn [valid_binary] in Ha.
    unfold bounded, canonical_mantissa in Ha.
    apply andb_true_iff in Ha. destruct Ha as [Hc _]. apply Z.eqb_eq in Hc.
    unfold fexp, emin, prec, emax in Hc.
    cbn [scalable]. apply Z.leb_le.
    pose proof (digits2_bounds m) as [Hlo _].
    apply (SFleb_finite_pos m 4503599627370496 e (-52)) in Hle.
    destruct Hle as [E | [E C]]; [lia |].
    assert (Hd : Zpos (digits2_pos m) - 1 < 53).
    { apply (Z.pow_lt_mono_r_iff 2); lia. }
    lia.
Qed.

(** A run with a format of more than 32 bits: the heading is on the
    output, no line of the table is, the file is untouched and the run ends
    in the [SystemExit] of the encoder. *)
Lemma main_bit_check (math_atan pow_two_frac : float -> float)
  (a : args) (w : world) (m n : Z) :
  niter a <= int_overflow ->
  arg_m a = Some m -> arg_n a = Some n -> 1 + m + n > 32 ->
  main math_atan pow_two_frac a w
  = ({| stdout := (stdout w ++ "# CORDIC Arctan LUT" ++ nl)%string;
        rtl_dir := rtl_dir w; lookup_v := lookup_v w |},
     Raise (SystemExit (bits_message m n (1 + m + n)))).
Proof.
  intros Hi Hm Hn Ht. unfold main, io_bind, io_lift.
  rewrite generate_cordic_lut_ok by assumption.
  unfold print. rewrite Hm, Hn. unfold format_qmn.
  destruct (Z.gtb_spec (1 + m + n) 32); [reflexivity | lia].
Qed.

(** ** The encoder on lists *)

(** [format_qmn] with its two checks of the configuration written out: the
    width first, then the shift count [m + n]. *)
Lemma format_qmn_cases (angles : list float) (m n : Z) :
  format_qmn angles m n
  = if 1 + m + n >? 32 then Raise (SystemExit (bits_message m n (1 + m + n)))
    else if m + n <? 0 then Raise ValueError
    else ws <- mapM (encode_word n (Z.shiftl 1 (m + n) - 1) (Z.shiftl 1 (m + n))
                       (Z.shiftl 1 (1 + m + n) - 1) (32 - (1 + m + n))) angles ;;
         Ok (map hex_word ws).
Proof.
  unfold format_qmn. destruct (1 + m + n >? 32); [reflexivity |].
  unfold py_lshift at 1 2.
  destruct (Z.ltb_spec (m + n) 0) as [H | H]; [reflexivity |].
  cbn [bind]. rewrite py_lshift_ok by lia. cbn [bind].
  apply qmn_loop_mapM.
Qed.

Lemma mapM_app {A B : Type} (f : A -> result B) (l1 l2 : list A) :
  mapM f (l1 ++ l2)
  = (b1 <- mapM f l1 ;; b2 <- mapM f l2 ;; Ok (b1 ++ b2)).
Proof.
  induction l1 as [| a l1 IH]; cbn [app mapM bind].
  - destruct (mapM f l2); reflexivity.
  - destruct (f a) as [b | e]; cbn [bind]; [| reflexivity].
    rewrite IH. destruct (mapM f l1) as [b1 | e]; cbn [bind]; [| reflexivity].
    destruct (mapM f l2) as [b2 | e]; reflexivity.
Qed.

(** X1. The encoder works entry by entry: the words of a concatenation are
    the words of the first list followed by the words of the second, and
    the first failure, in the order of the angles, is the failure of the
    whole; this holds for every list and every [m] and [n]. *)
Theorem format_qmn_app (l1 l2 : list float) (m n : Z) :
  format_qmn (l1 ++ l2) m n
  = (o1 <- format_qmn l1 m n ;; o2 <- format_qmn l2 m n ;; Ok (o1 ++ o2)).
Proof.
  rewrite !format_qmn_cases.
  destruct (1 + m + n >? 32); [reflexivity |].
  destruct (m + n <? 0); [reflexivity |].
  rewrite mapM_app.
  destruct (mapM _ l1) as [b1 | e]; cbn [bind]; [| reflexivity].
  destruct (mapM _ l2) as [b2 | e]; cbn [bind]; [| reflexivity].
  rewrite map_app. reflexivity.
Qed.

(** The loop body on a double that is not scalable. *)
Lemma encode_word_not_scalable (n mi hr mask sl : Z) (a : float) :
  0 <= n <= 52 -> double a -> scalable n a = false ->
  encode_word n mi hr mask sl a = Raise (round_error a).
Proof.
  intros Hn Ha Hs. destruct a as [s | s | | s m e].
  - discriminate.
  - unfold encode_word. rewrite py_lshift_ok by lia. cbn [bind].
    rewrite Z.shiftl_1_l. unfold fmul_int.
    rewrite float_of_int_pow2 by lia. reflexivity.
  - unfold encode_word. rewrite py_lshift_ok by lia. cbn [bind].
    rewrite Z.shiftl_1_l. unfold fmul_int.
    rewrite float_of_int_pow2 by lia. reflexivity.
  - apply encode_word_overflow; assumption.
Qed.

(** X2. The first angle whose product with [2 ^ n] leaves the doubles
    ends the call: with [OverflowError] when the angle is an infinity or a
    finite double too large to scale, with [ValueError] when it is a NaN.
    The clamp does not absorb such an angle, and the angles after it are
    not looked at. *)
Theorem format_qmn_first_failure (pre post : list float) (a : float) (m n : Z) :
  0 <= m -> 0 <= n -> 1 + m + n <= 32 ->
  Forall (fun x => double x /\ scalable n x = true) pre ->
  double a -> scalable n a = false ->
  format_qmn (pre ++ a :: post) m n = Raise (round_error a).
Proof.
  intros Hm Hn Ht Hpre Ha Hs. rewrite format_qmn_unfold by lia.
  rewrite mapM_app.
  rewrite (mapM_ok _ (fun x => spec_word m n (F2Q x))).
  - cbn [bind mapM].
    rewrite encode_word_not_scalable by (assumption || lia). reflexivity.
  - eapply Forall_impl; [| exact Hpre]. intros x [Hx Hsx].
    apply encode_word_spec; assumption.
Qed.

Lemma format_qmn_first_failure_witness :
  format_qmn ([pi_over_4] ++ S754_finite false 4503599627370496 971 :: [S754_nan]) 0 1
  = Raise OverflowError.
Proof.
  apply (format_qmn_first_failure [pi_over_4]
           [S754_nan] (S754_finite false 4503599627370496 971) 0 1);
    [lia | lia | lia | repeat constructor | reflexivity | reflexivity].
Defined.

(** X3. A negative [m] or [n] passes the check of the width and fails at
    the first shift by a negative count, with [ValueError]: at the shift
    by [m + n] before the loop, for every list, or at the shift by [n] at
    the first angle, whatever the angle is. *)
Theorem format_qmn_negative_shift (angles : list float) (m n : Z) :
  1 + m + n <= 32 ->
  m + n < 0 \/ (n < 0 /\ angles <> []) ->
  format_qmn angles m n = Raise ValueError.
Proof.
  intros Ht H. rewrite format_qmn_cases.
  destruct (Z.gtb_spec (1 + m + n) 32); [lia |].
  destruct (Z.ltb_spec (m + n) 0) as [Hmn | Hmn]; [reflexivity |].
  destruct H as [H | [Hn Hne]]; [lia |].
  destruct angles as [| a rest]; [congruence |].
  cbn [mapM]. unfold encode_word at 1, py_lshift.
  destruct (Z.ltb_spec n 0); [reflexivity | lia].
Qed.

Lemma format_qmn_negative_shift_witness :
  format_qmn [pi_over_4] 5 (-3) = Raise ValueError /\
  format_qmn [] (-5) 3 = Raise ValueError.
Proof.
  split.
  - apply (format_qmn_negative_shift [pi_over_4] 5 (-3));
      [lia | right; split; [lia | discriminate]].
  - apply (format_qmn_negative_shift [] (-5) 3); [lia | left; lia].
Defined.
(** ** The encoder on one angle *)

Lemma format_qmn_single (m n : Z) (a : float) :
  0 <= m -> 0 <= n -> 1 + m + n <= 32 ->
  double a -> scalable n a = true ->
  format_qmn [a] m n = Ok [hex_word (spec_word m n (F2Q a))].
Proof.
  intros Hm Hn Ht Ha Hs. rewrite format_qmn_unfold by lia.
  cbn [mapM]. rewrite encode_word_spec by assumption. reflexivity.
Qed.

(** Rounding to the nearest integer keeps the order. *)
Lemma round_half_even_mono (p q : Q) :
  (p <= q)%Q -> round_half_even p <= round_half_even q.
Proof.
  intro H.
  destruct (Z.le_gt_cases (round_half_even p) (round_half_even q)) as [Hle | Hgt];
    [exact Hle | exfalso].
  pose proof (round_half_even_near p) as Hp.
  pose proof (round_half_even_near q) as Hq.
  apply Qabs_Qle_condition in Hp. apply Qabs_Qle_condition in Hq.
  destruct Hp as [_ Hp]. destruct Hq as [Hq _].
  assert (Hz : (inject_Z (round_half_even q) + 1 <= inject_Z (round_half_even p))%Q).
  { change 1%Q with (inject_Z 1). rewrite <- inject_Z_plus, <- Zle_Qle. lia. }
  assert (E : (p == q)%Q) by (apply Qle_antisym; lra).
  rewrite (round_half_even_comp _ _ E) in Hgt. lia.
Qed.

Lemma round_half_even_opp (q : Q) :
  round_half_even (- q) = - round_half_even q.
Proof.
  destruct q as [num den]. change (- (num # den))%Q with (- num # den)%Q.
  rewrite !round_half_even_frac_spec. apply round_half_even_frac_opp.
Qed.

Lemma saturate_mono (m n c c' : Z) :
  c <= c' -> saturate m n c <= saturate m n c'.
Proof. unfold saturate. lia. Qed.

(** The justified word as a product. *)
Lemma justify_mod (m n c : Z) :
  0 <= m + n -> 1 + m + n <= 32 ->
  justify m n c = (c mod 2 ^ (1 + m + n)) * 2 ^ (32 - (1 + m + n)).
Proof.
  intros Hmn Ht. unfold justify. rewrite mask_ones by lia.
  rewrite Z.land_ones, Z.shiftl_mul_pow2 by lia. reflexivity.
Qed.

Lemma pow2_total_bits (m n : Z) :
  0 <= m + n -> 2 ^ (1 + m + n) = 2 * 2 ^ (m + n).
Proof.
  intro H. replace (1 + m + n) with (Z.succ (m + n)) by lia.
  apply Z.pow_succ_r. exact H.
Qed.

Lemma justify_max (m n : Z) :
  0 <= m + n -> 1 + m + n <= 32 ->
  justify m n (2 ^ (m + n) - 1) = (2 ^ (m + n) - 1) * 2 ^ (32 - (1 + m + n)).
Proof.
  intros Hmn Ht. rewrite justify_mod by assumption.
  pose proof (pow2_total_bits m n Hmn) as H2.
  assert (Hh : 0 < 2 ^ (m + n)) by (apply Z.pow_pos_nonneg; lia).
  rewrite Z.mod_small by lia. reflexivity.
Qed.

Lemma justify_min (m n : Z) :
  0 <= m + n -> 1 + m + n <= 32 ->
  justify m n (- 2 ^ (m + n)) = 2 ^ 31.
Proof.
  intros Hmn Ht. rewrite justify_mod by assumption.
  pose proof (pow2_total_bits m n Hmn) as H2.
  assert (Hh : 0 < 2 ^ (m + n)) by (apply Z.pow_pos_nonneg; lia).
  assert (Hr : - 2 ^ (m + n) mod 2 ^ (1 + m + n) = 2 ^ (m + n)).
  { symmetry. apply Z.mod_unique with (q := -1); lia. }
  rewrite Hr, <- Z.pow_add_r by lia. f_equal. lia.
Qed.

(** The words of a number and of its opposite add up to [2 ^ 32], or are
    both zero. *)
Lemma justify_opp (m n c : Z) :
  0 <= m + n -> 1 + m + n <= 32 ->
  justify m n (- c) = (2 ^ 32 - justify m n c) mod 2 ^ 32.
Proof.
  intros Hmn Ht. rewrite !justify_mod by assumption.
  set (t := 1 + m + n). set (P := 2 ^ (32 - t)).
  assert (Ht0 : 0 < 2 ^ t) by (apply Z.pow_pos_nonneg; unfold t; lia).
  assert (HP : 0 < P) by (apply Z.pow_pos_nonneg; unfold t; lia).
  assert (Hs : 2 ^ 32 = 2 ^ t * P).
  { unfold P. rewrite <- Z.pow_add_r by (unfold t; lia). f_equal. lia. }
  rewrite Hs.
  replace (2 ^ t * P - c mod 2 ^ t * P) with ((2 ^ t - c mod 2 ^ t) * P) by ring.
  rewrite Z.mul_mod_distr_r by lia. f_equal.
  pose proof (Z.mod_pos_bound c (2 ^ t) Ht0) as Hr.
  destruct (Z.eq_dec (c mod 2 ^ t) 0) as [E | E].
  - rewrite (Z.mod_opp_l_z c (2 ^ t) ltac:(lia) E), E, Z.sub_0_r.
    symmetry. apply Z.mod_same. lia.
  - rewrite (Z.mod_opp_l_nz c (2 ^ t) ltac:(lia) E).
    symmetry. apply Z.mod_small. lia.
Qed.

(** Reading back the word of an angle gives the clamped scaled value over
    [2 ^ n]. *)
Lemma decode_spec_word (m n : Z) (q : Q) :
  0 <= m + n -> 1 + m + n <= 32 ->
  decode m n (spec_word m n q)
  = (inject_Z (saturate m n (round_half_even (q * inject_Z (2 ^ n))))
     / inject_Z (2 ^ n))%Q.
Proof.
  intros Hmn Ht. unfold decode. rewrite spec_word_justify.
  rewrite unjustify by (try apply saturate_range; lia). reflexivity.
Qed.

Lemma inject_pow2_pos (n : Z) : 0 <= n -> (0 < inject_Z (2 ^ n))%Q.
Proof.
  intro Hn. rewrite <- Qpower_2_nonneg by assumption. apply Qpower_2_pos.
Qed.

(** X4. Saturation at the top: every angle at or above the largest value of
    the format, [(2^(m+n) - 1) / 2^n], gets the word of that value, the
    sign bit clear and the [m + n] bits below it set. *)
Theorem format_qmn_saturates_high (m n : Z) (a : float) :
  0 <= m -> 0 <= n -> 1 + m + n <= 32 ->
  double a -> scalable n a = true ->
  (inject_Z (2 ^ (m + n) - 1) <= F2Q a * inject_Z (2 ^ n))%Q ->
  format_qmn [a] m n
  = Ok [hex_word ((2 ^ (m + n) - 1) * 2 ^ (32 - (1 + m + n)))].
Proof.
  intros Hm Hn Ht Ha Hs Hq.
  rewrite format_qmn_single by assumption.
  rewrite spec_word_justify.
  apply round_half_even_mono in Hq. rewrite round_half_even_integer in Hq.
  replace (saturate m n (round_half_even (F2Q a * inject_Z (2 ^ n))))
    with (2 ^ (m + n) - 1).
  - rewrite justify_max by lia. reflexivity.
  - unfold saturate.
    assert (0 < 2 ^ (m + n)) by (apply Z.pow_pos_nonneg; lia). lia.
Qed.

Lemma format_qmn_saturates_high_witness :
  format_qmn [pi_over_4] 0 1
  = Ok [hex_word ((2 ^ (0 + 1) - 1) * 2 ^ (32 - (1 + 0 + 1)))].
Proof.
  apply (format_qmn_saturates_high 0 1 pi_over_4);
    [lia | lia | lia | reflexivity | reflexivity | vm_compute; discriminate].
Defined.

(** X5. Saturation at the bottom: every angle at or below the least value
    of the format, [- 2^m], gets the word [0x80000000], in every format. *)
Theorem format_qmn_saturates_low (m n : Z) (a : float) :
  0 <= m -> 0 <= n -> 1 + m + n <= 32 ->
  double a -> scalable n a = true ->
  (F2Q a * inject_Z (2 ^ n) <= inject_Z (- 2 ^ (m + n)))%Q ->
  format_qmn [a] m n = Ok ["0x80000000"%string].
Proof.
  intros Hm Hn Ht Ha Hs Hq.
  rewrite format_qmn_single by assumption.
  rewrite spec_word_justify.
  apply round_half_even_mono in Hq. rewrite round_half_even_integer in Hq.
  replace (saturate m n (round_half_even (F2Q a * inject_Z (2 ^ n))))
    with (- 2 ^ (m + n)).
  - rewrite justify_min by lia. reflexivity.
  - unfold saturate.
    assert (0 < 2 ^ (m + n)) by (apply Z.pow_pos_nonneg; lia). lia.
Qed.

Lemma format_qmn_saturates_low_witness :
  format_qmn [S754_finite true 4503599627370496 (-51)] 0 1
  = Ok ["0x80000000"%string].
Proof.
  apply (format_qmn_saturates_low 0 1 (S754_finite true 4503599627370496 (-51)));
    [lia | lia | lia | reflexivity | reflexivity | vm_compute; discriminate].
Defined.

(** X6. The encoder keeps the order of the angles: of two angles, the
    smaller one never decodes to the larger value. *)
Theorem format_qmn_monotone (m n : Z) (a b : float) :
  0 <= m -> 0 <= n -> 1 + m + n <= 32 ->
  double a -> scalable n a = true ->
  double b -> scalable n b = true ->
  (F2Q a <= F2Q b)%Q ->
  exists wa wb,
    format_qmn [a; b] m n = Ok [hex_word wa; hex_word wb] /\
    (decode m n wa <= decode m n wb)%Q.
Proof.
  intros Hm Hn Ht Ha Hsa Hb Hsb Hab.
  exists (spec_word m n (F2Q a)), (spec_word m n (F2Q b)). split.
  - rewrite format_qmn_unfold by lia. cbn [mapM].
    rewrite !encode_word_spec by assumption. reflexivity.
  - rewrite !decode_spec_word by lia.
    pose proof (inject_pow2_pos n Hn) as Hp.
    unfold Qdiv. apply Qmult_le_compat_r;
      [| apply Qlt_le_weak, Qinv_lt_0_compat, Hp].
    rewrite <- Zle_Qle. apply saturate_mono, round_half_even_mono.
    apply Qmult_le_compat_r; [exact Hab | apply Qlt_le_weak, Hp].
Qed.

Lemma format_qmn_monotone_witness :
  exists wa wb,
    format_qmn [S754_finite false 8352332796509007 (-54); pi_over_4] 1 6
    = Ok [hex_word wa; hex_word wb] /\
    (decode 1 6 wa <= decode 1 6 wb)%Q.
Proof.
  apply (format_qmn_monotone 1 6
           (S754_finite false 8352332796509007 (-54)) pi_over_4);
    [lia | lia | lia | reflexivity | reflexivity | reflexivity | reflexivity
    | vm_compute; discriminate].
Defined.

(** X7. Encoding is idempotent: a double that holds the decoded value of a
    word is encoded to that word again. *)
Theorem format_qmn_idempotent (m n : Z) (a b : float) :
  0 <= m -> 0 <= n -> 1 + m + n <= 32 ->
  double a -> scalable n a = true ->
  double b -> is_finite b = true ->
  (F2Q b == decode m n (spec_word m n (F2Q a)))%Q ->
  format_qmn [b] m n = format_qmn [a] m n.
Proof.
  intros Hm Hn Ht Ha Hsa Hb Hfb Hval.
  rewrite decode_spec_word in Hval by lia.
  set (c := saturate m n (round_half_even (F2Q a * inject_Z (2 ^ n)))) in *.
  pose proof (saturate_range m n (round_half_even (F2Q a * inject_Z (2 ^ n)))
                ltac:(lia)) as Hc.
  fold c in Hc.
  pose proof (inject_pow2_pos n Hn) as Hp.
  assert (Hsc : (F2Q b * inject_Z (2 ^ n) == inject_Z c)%Q).
  { rewrite Hval. field. intro E. rewrite E in Hp. discriminate. }
  assert (Hr : round_half_even (F2Q b * inject_Z (2 ^ n)) = c).
  { rewrite (round_half_even_comp _ _ Hsc). apply round_half_even_integer. }
  assert (Hsb : scalable n b = true).
  { apply (in_range_scalable m n b Hm Hn Ht Hb Hfb). rewrite Hr. exact Hc. }
  rewrite !format_qmn_single by assumption.
  rewrite !spec_word_justify, Hr. fold c.
  rewrite (saturate_id m n c Hc). reflexivity.
Qed.

Lemma format_qmn_idempotent_witness :
  format_qmn [S754_finite false 7036874417766400 (-53)] 1 6
  = format_qmn [pi_over_4] 1 6.
Proof.
  apply (format_qmn_idempotent 1 6 pi_over_4
           (S754_finite false 7036874417766400 (-53)));
    [lia | lia | lia | reflexivity | reflexivity | reflexivity | reflexivity
    | vm_compute; reflexivity].
Defined.
(** The opposite of a double. *)
Lemma F2Q_opp (a : float) : (F2Q (SFopp a) == - F2Q a)%Q.
Proof.
  destruct a as [s | s | | s m e]; cbn [SFopp F2Q]; try reflexivity.
  destruct s; cbn [negb cond_Zopp];
    unfold Qeq, Qmult, Qopp, inject_Z; cbn [Qnum Qden]; ring.
Qed.

Lemma double_opp (a : float) : double a -> double (SFopp a).
Proof. destruct a; exact (fun H => H). Qed.

Lemma scalable_opp (n : Z) (a : float) : scalable n (SFopp a) = scalable n a.
Proof. destruct a; reflexivity. Qed.

(** X8. Rounding is symmetric: where neither is clamped, the words of an
    angle and of its opposite are two's complements of each other, their
    sum being 0 modulo [2 ^ 32]. *)
Theorem format_qmn_negation (m n : Z) (a : float) :
  0 <= m -> 0 <= n -> 1 + m + n <= 32 ->
  double a -> scalable n a = true ->
  Z.abs (round_half_even (F2Q a * inject_Z (2 ^ n))) <= 2 ^ (m + n) - 1 ->
  let w := spec_word m n (F2Q a) in
  format_qmn [a; SFopp a] m n
  = Ok [hex_word w; hex_word ((2 ^ 32 - w) mod 2 ^ 32)].
Proof.
  intros Hm Hn Ht Ha Hs Hr w.
  rewrite format_qmn_unfold by lia. cbn [mapM].
  rewrite !encode_word_spec
    by (assumption || apply double_opp, Ha || (rewrite scalable_opp; exact Hs)).
  cbn [bind map]. unfold w.
  rewrite !spec_word_justify.
  assert (E : (F2Q (SFopp a) * inject_Z (2 ^ n)
               == - (F2Q a * inject_Z (2 ^ n)))%Q)
    by (rewrite F2Q_opp; ring).
  rewrite (round_half_even_comp _ _ E), round_half_even_opp.
  set (c := round_half_even (F2Q a * inject_Z (2 ^ n))) in *.
  rewrite !saturate_id by lia.
  rewrite justify_opp by lia. reflexivity.
Qed.

Lemma format_qmn_negation_witness :
  let w := spec_word 1 6 (F2Q pi_over_4) in
  format_qmn [pi_over_4; SFopp pi_over_4] 1 6
  = Ok [hex_word w; hex_word ((2 ^ 32 - w) mod 2 ^ 32)].
Proof.
  apply (format_qmn_negation 1 6 pi_over_4);
    [lia | lia | lia | reflexivity | reflexivity | vm_compute; discriminate].
Defined.
(** ** The table and the gain over the turns *)

Lemma Z_range_app (c1 c2 : nat) :
  forall lo, Z_range lo (c1 + c2)
             = Z_range lo c1 ++ Z_range (lo + Z.of_nat c1) c2.
Proof.
  induction c1 as [| c1 IH]; intro lo.
  - cbn [Nat.add]. change (Z.of_nat 0) with 0. rewrite Z.add_0_r. reflexivity.
  - cbn [Nat.add]. rewrite !Z_range_cons, IH. cbn [app]. do 3 f_equal. lia.
Qed.

Lemma Z_range_bounds (lo : Z) (cnt : nat) (z : Z) :
  In z (Z_range lo cnt) -> lo <= z < lo + Z.of_nat cnt.
Proof.
  unfold Z_range. rewrite in_map_iff. intros [k [<- Hk]].
  apply in_seq in Hk. lia.
Qed.

(** The result of a call that returns is the closed form. *)
Lemma generate_cordic_lut_inv (math_atan pow_two_frac : float -> float)
  (n_iter : Z) (angles : list float) (K : float) :
  generate_cordic_lut math_atan pow_two_frac n_iter = Ok (angles, K) ->
  n_iter <= int_overflow /\
  angles = angle_table math_atan n_iter /\ K = gain n_iter.
Proof.
  intro H. destruct (Z.le_gt_cases n_iter int_overflow) as [Hle | Hgt].
  - split; [exact Hle |]. rewrite generate_cordic_lut_ok in H by exact Hle.
    split.
    + apply (f_equal (fun r => match r with
                               | Ok (l, _) => l
                               | Raise _ => []
                               end)) in H.
      symmetry. exact H.
    + apply (f_equal (fun r => match r with
                               | Ok (_, k) => k
                               | Raise _ => f_one
                               end)) in H.
      symmetry. exact H.
  - rewrite generate_cordic_lut_overflow in H by exact Hgt. discriminate.
Qed.

(** From the 26th turn on the factor of the gain is the double 1.0:
    [1.0 + 2^-52] has the square root [1.0], and [1.0 + 2^k] is [1.0] for
    [k < -53]. *)
Lemma gain_factor_one (k : Z) : k <= -52 -> gain_factor k = f_one.
Proof.
  intro Hk. destruct (Z.lt_ge_cases k (-1074)) as [Hu | Hr].
  - unfold gain_factor. rewrite exp2_underflow by assumption.
    vm_compute. reflexivity.
  - apply float_beq_eq.
    apply (Z_range_check (fun k => float_beq (gain_factor k) f_one) (-1074) 1023);
      [vm_compute; reflexivity | lia].
Qed.

Lemma gain_limit_one : fmul gain_limit f_one = gain_limit.
Proof. vm_compute. reflexivity. Qed.

Lemma gain_26 : gain 26 = gain_limit.
Proof. vm_compute. reflexivity. Qed.

Lemma gain_tail (cnt : nat) :
  forall lo, 26 <= lo ->
  fold_left (fun K i => fmul K (gain_factor (- 2 * i))) (Z_range lo cnt) gain_limit
  = gain_limit.
Proof.
  induction cnt as [| cnt IH]; intros lo Hlo; [reflexivity |].
  rewrite Z_range_cons. cbn [fold_left].
  rewrite gain_factor_one by lia. rewrite gain_limit_one. apply IH. lia.
Qed.

Lemma gain_stable (n : Z) : 26 <= n -> gain n = gain_limit.
Proof.
  intro H. unfold gain.
  replace (Z.to_nat n) with (26 + (Z.to_nat n - 26))%nat by lia.
  rewrite Z_range_app, fold_left_app.
  change (fold_left (fun K i => fmul K (gain_factor (- 2 * i))) (Z_range 0 26) f_one)
    with (gain 26).
  rewrite gain_26. apply gain_tail. lia.
Qed.

Lemma gain_strict (n n' : Z) :
  0 <= n -> n < n' -> n' <= 26 -> SFltb (gain n') (gain n) = true.
Proof.
  intros Hn Hlt Hn'.
  pose (P := fun n => forallb (fun n' => SFltb (gain n') (gain n))
                        (Z_range (n + 1) (Z.to_nat (26 - n)))).
  assert (H : P n = true).
  { apply (Z_range_check P 0 26); [vm_compute; reflexivity | lia]. }
  unfold P in H. rewrite forallb_forall in H.
  apply H, Z_range_In. lia.
Qed.

(** X9. From 26 turns on the gain no longer changes: every further factor
    is the double 1.0, and the gain is 0.6072529350088814, which [main]
    prints as 0.607252935009. *)
Theorem generate_cordic_lut_gain_limit (math_atan pow_two_frac : float -> float)
  (n_iter : Z) :
  26 <= n_iter <= int_overflow ->
  (exists angles,
     generate_cordic_lut math_atan pow_two_frac n_iter = Ok (angles, gain_limit)) /\
  format_12f gain_limit = "0.607252935009"%string.
Proof.
  intros [Hlo Hhi]. split; [| vm_compute; reflexivity].
  exists (angle_table math_atan n_iter).
  rewrite generate_cordic_lut_ok by exact Hhi.
  rewrite gain_stable by exact Hlo. reflexivity.
Qed.

Lemma generate_cordic_lut_gain_limit_witness :
  (exists angles,
     generate_cordic_lut atan_sample pow_frac_sample 32 = Ok (angles, gain_limit)) /\
  format_12f gain_limit = "0.607252935009"%string.
Proof.
  apply (generate_cordic_lut_gain_limit atan_sample pow_frac_sample 32).
  split; [lia | unfold int_overflow; lia].
Defined.

(** X10. The gain falls with every turn up to the 26th and stays where it
    is from there on: of two calls, the longer one returns the strictly
    smaller gain when the shorter has fewer than 26 turns, and the same
    gain otherwise. *)
Theorem generate_cordic_lut_gain_decreasing
  (math_atan pow_two_frac : float -> float) (n n' : Z) :
  0 <= n -> n < n' -> n' <= int_overflow ->
  exists angles angles' K K',
    generate_cordic_lut math_atan pow_two_frac n = Ok (angles, K) /\
    generate_cordic_lut math_atan pow_two_frac n' = Ok (angles', K') /\
    if n <? 26 then SFltb K' K = true else K' = K.
Proof.
  intros Hn Hlt Hhi.
  exists (angle_table math_atan n), (angle_table math_atan n'), (gain n), (gain n').
  split; [apply generate_cordic_lut_ok; lia |].
  split; [apply generate_cordic_lut_ok; lia |].
  destruct (Z.ltb_spec n 26) as [H26 | H26].
  - destruct (Z.le_gt_cases n' 26) as [Hs | Hl].
    + apply gain_strict; assumption.
    + rewrite (gain_stable n') by lia. rewrite <- gain_26.
      apply gain_strict; lia.
  - rewrite !gain_stable by lia. reflexivity.
Qed.

Lemma generate_cordic_lut_gain_decreasing_witness :
  exists angles angles' K K',
    generate_cordic_lut atan_sample pow_frac_sample 4 = Ok (angles, K) /\
    generate_cordic_lut atan_sample pow_frac_sample 16 = Ok (angles', K') /\
    if 4 <? 26 then SFltb K' K = true else K' = K.
Proof.
  apply (generate_cordic_lut_gain_decreasing atan_sample pow_frac_sample 4 16);
    [lia | lia | unfold int_overflow; lia].
Defined.

(** X11. A longer table extends a shorter one: the table of [n] turns is
    the first [n] entries of the table of [n'] turns, for [n <= n']. *)
Theorem generate_cordic_lut_extends (math_atan pow_two_frac : float -> float)
  (n n' : Z) (angles angles' : list float) (K K' : float) :
  n <= n' ->
  generate_cordic_lut math_atan pow_two_frac n = Ok (angles, K) ->
  generate_cordic_lut math_atan pow_two_frac n' = Ok (angles', K') ->
  angles = firstn (Z.to_nat n) angles'.
Proof.
  intros Hle H H'.
  apply generate_cordic_lut_inv in H. destruct H as [_ [-> _]].
  apply generate_cordic_lut_inv in H'. destruct H' as [_ [-> _]].
  unfold angle_table.
  replace (Z.to_nat n') with (Z.to_nat n + (Z.to_nat n' - Z.to_nat n))%nat by lia.
  rewrite Z_range_app, map_app, firstn_app.
  rewrite length_map, Z_range_length, Nat.sub_diag, firstn_O, app_nil_r.
  rewrite firstn_all2; [reflexivity |].
  rewrite length_map, Z_range_length. lia.
Qed.

Lemma generate_cordic_lut_extends_witness :
  [pi_over_4; S754_finite false 8352332796509007 (-54)]
  = firstn (Z.to_nat 2)
      [pi_over_4; S754_finite false 8352332796509007 (-54);
       S754_finite false 8826286527774941 (-55);
       S754_finite false 8960721713639278 (-56)].
Proof.
  apply (generate_cordic_lut_extends atan_sample pow_frac_sample 2 4 _ _
           (S754_finite false 5696652996790542 (-53))
           (S754_finite false 5483888363090942 (-53)));
    [lia | vm_compute; reflexivity | vm_compute; reflexivity].
Defined.

(** X12. Past the range of the doubles the table is flat: from index 1075
    on, [2.0 ** -i] is 0.0 and the entry is the arctangent of 0.0. *)
Theorem generate_cordic_lut_tail (math_atan pow_two_frac : float -> float)
  (n_iter i : Z) :
  1075 <= i -> i < n_iter -> n_iter <= int_overflow ->
  exists angles K,
    generate_cordic_lut math_atan pow_two_frac n_iter = Ok (angles, K) /\
    nth_error angles (Z.to_nat i) = Some (math_atan (S754_zero false)).
Proof.
  intros Hlo Hi Hhi.
  exists (angle_table math_atan n_iter), (gain n_iter).
  split; [apply generate_cordic_lut_ok, Hhi |].
  rewrite angle_table_nth by lia. rewrite exp2_underflow by lia. reflexivity.
Qed.

Lemma generate_cordic_lut_tail_witness :
  exists angles K,
    generate_cordic_lut atan_sample pow_frac_sample 1080 = Ok (angles, K) /\
    nth_error angles (Z.to_nat 1079) = Some (atan_sample (S754_zero false)).
Proof.
  apply (generate_cordic_lut_tail atan_sample pow_frac_sample 1080 1079);
    [lia | lia | unfold int_overflow; lia].
Defined.

(** X13. The table always encodes: on a platform whose arctangent returns
    doubles of magnitude at most 1.0 at the arguments of the table, the
    encoder returns one word per turn for every format of at most 32 bits,
    and raises nothing. *)
Theorem generate_then_format (math_atan pow_two_frac : float -> float)
  (n_iter m n : Z) :
  0 <= m -> 0 <= n -> 1 + m + n <= 32 -> n_iter <= int_overflow ->
  (forall i, 0 <= i < n_iter ->
     double (math_atan (exp2 (- i))) /\
     is_finite (math_atan (exp2 (- i))) = true /\
     SFleb (SFabs (math_atan (exp2 (- i)))) f_one = true) ->
  exists angles K hs,
    generate_cordic_lut math_atan pow_two_frac n_iter = Ok (angles, K) /\
    format_qmn angles m n = Ok hs /\
    List.length hs = Z.to_nat n_iter.
Proof.
  intros Hm Hn Ht Hhi Hatan.
  exists (angle_table math_atan n_iter), (gain n_iter),
    (map (fun a => hex_word (spec_word m n (F2Q a))) (angle_table math_atan n_iter)).
  split; [apply generate_cordic_lut_ok, Hhi |]. split.
  - rewrite format_qmn_unfold by lia.
    rewrite (mapM_ok _ (fun a => spec_word m n (F2Q a))).
    + cbn [bind]. rewrite map_map. reflexivity.
    + apply Forall_forall. intros a Ha. unfold angle_table in Ha.
      apply in_map_iff in Ha. destruct Ha as [i [<- Hi]].
      apply Z_range_bounds in Hi.
      destruct (Hatan i ltac:(lia)) as [Hd [Hf Hb]].
      apply encode_word_spec; try assumption.
      apply scalable_unit; try assumption. lia.
  - rewrite length_map. apply angle_table_length.
Qed.

Lemma generate_then_format_witness :
  exists angles K hs,
    generate_cordic_lut atan_sample pow_frac_sample 4 = Ok (angles, K) /\
    format_qmn angles 1 6 = Ok hs /\
    List.length hs = Z.to_nat 4.
Proof.
  apply (generate_then_format atan_sample pow_frac_sample 4 1 6);
    [lia | lia | lia | unfold int_overflow; lia |].
  intros i Hi.
  assert (E : i = 0 \/ i = 1 \/ i = 2 \/ i = 3) by lia.
  destruct E as [-> | [-> | [-> | ->]]]; vm_compute; repeat split.
Defined.
(** ** Whole runs of [main] *)

(** The text that a loop of [print] calls appends to the output. *)
Lemma print_lines_text {A : Type} (f : A -> string) (l : list A) (w : world) :
  io_for l (fun x => print (f x)) w
  = ({| stdout := (stdout w ++ printed (map f l))%string;
        rtl_dir := rtl_dir w; lookup_v := lookup_v w |}, Ok tt).
Proof.
  revert w. induction l as [| x l IH]; intro w.
  - cbn [io_for map printed]. rewrite append_empty_r. destruct w; reflexivity.
  - cbn [io_for map printed]. unfold io_bind, print at 1. rewrite IH.
    cbn [stdout rtl_dir lookup_v]. rewrite !append_assoc_string. reflexivity.
Qed.

(** The Verilog branch where the directory [rtl] does not exist: [open]
    raises before anything is written. *)
Lemma emit_verilog_no_dir (a : args) (hs : option (list string)) (w : world) :
  rtl_dir w = false ->
  emit_verilog a hs w
  = ({| stdout := (stdout w ++ verilog_notice)%string;
        rtl_dir := false; lookup_v := lookup_v w |}, Raise FileNotFoundError).
Proof.
  intro Hd. unfold emit_verilog, io_bind, print, open_w.
  cbn [stdout rtl_dir lookup_v]. rewrite Hd. unfold verilog_notice.
  rewrite !append_assoc_string. reflexivity.
Qed.

(** X14. A run with both [--m] and [--n] that succeeds, with or without
    the flag: the output is the heading, one line [iter i: 0x...] per word,
    an empty line and the gain, followed by the notice of the Verilog file
    when the flag is given; the file gets the module of the same words with
    the flag and is left as it was without it. *)
Theorem main_hex_run (math_atan pow_two_frac : float -> float)
  (a : args) (w : world) (m n : Z) (angles : list float) (K : float)
  (hs : list string) :
  arg_m a = Some m -> arg_n a = Some n ->
  (genverilog a = true -> rtl_dir w = true) ->
  generate_cordic_lut math_atan pow_two_frac (niter a) = Ok (angles, K) ->
  format_qmn angles m n = Ok hs ->
  main math_atan pow_two_frac a w
  = ({| stdout := (stdout w ++ report_text (map hex_line (enumerate hs)) K
                   ++ (if genverilog a then verilog_notice else EmptyString))%string;
        rtl_dir := rtl_dir w;
        lookup_v := if genverilog a
                    then Some (verilog_text (1 + m + n) (niter a) hs)
                    else lookup_v w |}, Ok tt).
Proof.
  intros Hm Hn Hd Hgen Hfmt. unfold main, io_bind at 1, io_lift at 1.
  rewrite Hgen, Hm, Hn, Hfmt.
  unfold io_bind at 1, print at 1.
  unfold io_bind at 1. unfold io_bind at 1, io_lift at 1.
  unfold io_bind at 1.
  change (fun ih : Z * string =>
            print ("iter " ++ format_2d (fst ih) ++ ": " ++ snd ih))
    with (fun ih : Z * string => print (hex_line ih)).
  rewrite print_lines_text. unfold io_ret at 1.
  unfold io_bind at 1, print at 1. cbn [stdout rtl_dir lookup_v].
  destruct (genverilog a) eqn:Hv.
  - erewrite emit_verilog_ok; [| exact Hm | exact Hn | exact (Hd eq_refl)].
    cbn [stdout rtl_dir lookup_v]. rewrite (Hd eq_refl).
    unfold report_text, verilog_notice.
    rewrite !append_assoc_string. reflexivity.
  - unfold io_ret, report_text.
    rewrite !append_assoc_string, append_empty_r. reflexivity.
Qed.

Lemma main_hex_run_witness :
  main atan_sample pow_frac_sample (sample_args 2 (Some 1) (Some 6) true) fresh_world
  = ({| stdout := (EmptyString
                   ++ report_text
                        (map hex_line (enumerate ["0x32000000"; "0x1E000000"]%string))
                        (S754_finite false 5696652996790542 (-53))
                   ++ verilog_notice)%string;
        rtl_dir := true;
        lookup_v := Some (verilog_text (1 + 1 + 6) 2
                            ["0x32000000"; "0x1E000000"]%string) |}, Ok tt).
Proof.
  apply (main_hex_run atan_sample pow_frac_sample
           (sample_args 2 (Some 1) (Some 6) true) fresh_world 1 6
           [pi_over_4; S754_finite false 8352332796509007 (-54)]
           (S754_finite false 5696652996790542 (-53))
           ["0x32000000"; "0x1E000000"]%string);
    [reflexivity | reflexivity | reflexivity
    | vm_compute; reflexivity | vm_compute; reflexivity].
Defined.

(** X15. A run without [--m] or without [--n], and without the flag: the
    output is the heading, one line
    [iter i: atan(2^-i) = <twelve decimals> rad] per angle, an empty line
    and the gain; the file is left as it was. *)
Theorem main_radians_run (math_atan pow_two_frac : float -> float)
  (a : args) (w : world) (angles : list float) (K : float) :
  arg_m a = None \/ arg_n a = None -> genverilog a = false ->
  generate_cordic_lut math_atan pow_two_frac (niter a) = Ok (angles, K) ->
  main math_atan pow_two_frac a w
  = ({| stdout := (stdout w
                   ++ report_text (map rad_line (enumerate angles)) K)%string;
        rtl_dir := rtl_dir w; lookup_v := lookup_v w |}, Ok tt).
Proof.
  intros Hmn Hv Hgen. unfold main, io_bind at 1, io_lift at 1.
  rewrite Hgen, Hv.
  unfold io_bind at 1, print at 1.
  assert (Hmode :
    (match arg_m a, arg_n a with
     | Some m, Some n =>
         io_bind (io_lift (format_qmn angles m n))
           (fun hs =>
              io_bind
                (io_for (enumerate hs)
                   (fun ih => print ("iter " ++ format_2d (fst ih) ++ ": " ++ snd ih)))
                (fun _ => io_ret (Some hs)))
     | _, _ =>
         io_bind
           (io_for (enumerate angles)
              (fun ia => print ("iter " ++ format_2d (fst ia) ++ ": atan(2^-"
                                ++ str_int (fst ia) ++ ") = "
                                ++ format_12f (snd ia) ++ " rad")))
           (fun _ => io_ret None)
     end)
    = io_bind (io_for (enumerate angles) (fun ia => print (rad_line ia)))
        (fun _ => io_ret (@None (list string)))).
  { destruct Hmn as [H | H]; rewrite H; [reflexivity |].
    destruct (arg_m a); reflexivity. }
  rewrite Hmode. unfold io_bind at 1. unfold io_bind at 1.
  rewrite print_lines_text. unfold io_ret at 1.
  unfold io_bind, print, io_ret. cbn [stdout rtl_dir lookup_v].
  unfold report_text. rewrite !append_assoc_string. reflexivity.
Qed.

Lemma main_radians_run_witness :
  main atan_sample pow_frac_sample (sample_args 2 None None false) fresh_world
  = ({| stdout := (EmptyString
                   ++ report_text
                        (map rad_line
                           (enumerate [pi_over_4;
                                       S754_finite false 8352332796509007 (-54)]))
                        (S754_finite false 5696652996790542 (-53)))%string;
        rtl_dir := true; lookup_v := None |}, Ok tt).
Proof.
  apply (main_radians_run atan_sample pow_frac_sample
           (sample_args 2 None None false) fresh_world
           [pi_over_4; S754_finite false 8352332796509007 (-54)]
           (S754_finite false 5696652996790542 (-53)));
    [left; reflexivity | reflexivity | vm_compute; reflexivity].
Defined.
(** X16. A failure of the encoder ends the run where it happens: the
    heading is on the output, no line of the table and no gain is, and the
    file is left as it was, with or without the flag. *)
Theorem main_encoder_failure (math_atan pow_two_frac : float -> float)
  (a : args) (w : world) (m n : Z) (angles : list float) (K : float) (e : exn) :
  arg_m a = Some m -> arg_n a = Some n ->
  generate_cordic_lut math_atan pow_two_frac (niter a) = Ok (angles, K) ->
  format_qmn angles m n = Raise e ->
  main math_atan pow_two_frac a w
  = ({| stdout := (stdout w ++ "# CORDIC Arctan LUT" ++ nl)%string;
        rtl_dir := rtl_dir w; lookup_v := lookup_v w |}, Raise e).
Proof.
  intros Hm Hn Hgen Hfmt. unfold main, io_bind, io_lift.
  rewrite Hgen, Hm, Hn, Hfmt. reflexivity.
Qed.

Lemma main_encoder_failure_witness :
  main atan_sample pow_frac_sample (sample_args 2 (Some 5) (Some (-3)) true)
    {| stdout := EmptyString; rtl_dir := true;
       lookup_v := Some "module arctan_lookup"%string |}
  = ({| stdout := (EmptyString ++ "# CORDIC Arctan LUT" ++ nl)%string;
        rtl_dir := true; lookup_v := Some "module arctan_lookup"%string |},
     Raise ValueError).
Proof.
  apply (main_encoder_failure atan_sample pow_frac_sample
           (sample_args 2 (Some 5) (Some (-3)) true)
           {| stdout := EmptyString; rtl_dir := true;
              lookup_v := Some "module arctan_lookup"%string |} 5 (-3)
           [pi_over_4; S754_finite false 8352332796509007 (-54)]
           (S754_finite false 5696652996790542 (-53)) ValueError);
    [reflexivity | reflexivity | vm_compute; reflexivity | vm_compute; reflexivity].
Defined.

(** [main] up to the Verilog branch, with the text of the report. *)
Lemma main_report_text (math_atan pow_two_frac : float -> float)
  (a : args) (w : world) (angles : list float) (K : float)
  (lines : list string) :
  generate_cordic_lut math_atan pow_two_frac (niter a) = Ok (angles, K) ->
  table_lines a angles = Ok lines ->
  exists hex_values,
    main math_atan pow_two_frac a w
    = (if genverilog a then emit_verilog a hex_values else io_ret tt)
        {| stdout := (stdout w ++ report_text lines K)%string;
           rtl_dir := rtl_dir w; lookup_v := lookup_v w |}.
Proof.
  intros Hgen Hlines. unfold main, io_bind at 1, io_lift at 1. rewrite Hgen.
  unfold io_bind at 1, print at 1. unfold table_lines in Hlines.
  destruct (arg_m a) as [m |] eqn:Em; [destruct (arg_n a) as [n |] eqn:En |].
  - destruct (format_qmn angles m n) as [hs | e]; [| discriminate Hlines].
    cbn [bind] in Hlines.
    apply (f_equal (fun r => match r with Ok l => l | Raise _ => [] end)) in Hlines.
    cbn beta iota in Hlines. subst lines. exists (Some hs).
    unfold io_bind at 1. unfold io_bind at 1, io_lift at 1.
    unfold io_bind at 1.
    change (fun ih : Z * string =>
              print ("iter " ++ format_2d (fst ih) ++ ": " ++ snd ih))
      with (fun ih : Z * string => print (hex_line ih)).
    rewrite print_lines_text. unfold io_ret at 1.
    unfold io_bind at 1, print at 1. cbn [stdout rtl_dir lookup_v].
    unfold report_text. rewrite !append_assoc_string. reflexivity.
  - apply (f_equal (fun r => match r with Ok l => l | Raise _ => [] end)) in Hlines.
    cbn beta iota in Hlines. subst lines. exists None.
    unfold io_bind at 1. unfold io_bind at 1.
    change (fun ia : Z * float =>
              print ("iter " ++ format_2d (fst ia) ++ ": atan(2^-"
                     ++ str_int (fst ia) ++ ") = "
                     ++ format_12f (snd ia) ++ " rad"))
      with (fun ia : Z * float => print (rad_line ia)).
    rewrite print_lines_text. unfold io_ret at 1.
    unfold io_bind at 1, print at 1. cbn [stdout rtl_dir lookup_v].
    unfold report_text. rewrite !append_assoc_string. reflexivity.
  - apply (f_equal (fun r => match r with Ok l => l | Raise _ => [] end)) in Hlines.
    cbn beta iota in Hlines. subst lines. exists None.
    unfold io_bind at 1. unfold io_bind at 1.
    change (fun ia : Z * float =>
              print ("iter " ++ format_2d (fst ia) ++ ": atan(2^-"
                     ++ str_int (fst ia) ++ ") = "
                     ++ format_12f (snd ia) ++ " rad"))
      with (fun ia : Z * float => print (rad_line ia)).
    rewrite print_lines_text. unfold io_ret at 1.
    unfold io_bind at 1, print at 1. cbn [stdout rtl_dir lookup_v].
    unfold report_text. rewrite !append_assoc_string. reflexivity.
Qed.

(** X17. With the flag and without a directory [rtl], the whole report is
    printed (the heading, the lines of the table in the mode of the run, the
    empty line and the gain), the notice too, and [open] then raises
    [FileNotFoundError]: the script does not create the directory, and
    nothing is written. This comes before the sum of [--m] and [--n] is
    formed, so it is the end of the run also where one of the two is
    missing. *)
Theorem main_missing_directory (math_atan pow_two_frac : float -> float)
  (a : args) (w : world) (angles : list float) (K : float)
  (lines : list string) :
  genverilog a = true -> rtl_dir w = false ->
  generate_cordic_lut math_atan pow_two_frac (niter a) = Ok (angles, K) ->
  table_lines a angles = Ok lines ->
  main math_atan pow_two_frac a w
  = ({| stdout := (stdout w ++ report_text lines K ++ verilog_notice)%string;
        rtl_dir := false; lookup_v := lookup_v w |},
     Raise FileNotFoundError).
Proof.
  intros Hv Hd Hgen Hlines.
  destruct (main_report_text math_atan pow_two_frac a w angles K lines Hgen Hlines)
    as [hex_values Hmain].
  rewrite Hmain, Hv. rewrite emit_verilog_no_dir by exact Hd.
  cbn [stdout rtl_dir lookup_v]. rewrite append_assoc_string. reflexivity.
Qed.

Lemma main_missing_directory_witness :
  main atan_sample pow_frac_sample (sample_args 2 (Some 1) (Some 6) true)
    {| stdout := "$ "%string; rtl_dir := false; lookup_v := None |}
  = ({| stdout := ("$ "
                   ++ report_text
                        (map hex_line (enumerate ["0x32000000"; "0x1E000000"]%string))
                        (S754_finite false 5696652996790542 (-53))
                   ++ verilog_notice)%string;
        rtl_dir := false; lookup_v := None |},
     Raise FileNotFoundError).
Proof.
  apply (main_missing_directory atan_sample pow_frac_sample
           (sample_args 2 (Some 1) (Some 6) true)
           {| stdout := "$ "%string; rtl_dir := false; lookup_v := None |}
           [pi_over_4; S754_finite false 8352332796509007 (-54)]
           (S754_finite false 5696652996790542 (-53))
           (map hex_line (enumerate ["0x32000000"; "0x1E000000"]%string)));
    [reflexivity | reflexivity | vm_compute; reflexivity | vm_compute; reflexivity].
Defined.

(** X19. With [--niter] zero or negative the loop of the generator does
    not run: the report is the heading, an empty line and the gain
    1.000000000000, in radians and in every format that passes the checks
    of the encoder, and the file is left as it was without the flag. *)
Theorem main_no_turns (math_atan pow_two_frac : float -> float)
  (a : args) (w : world) :
  niter a <= 0 -> genverilog a = false ->
  (forall m n, arg_m a = Some m -> arg_n a = Some n ->
               0 <= m + n /\ 1 + m + n <= 32) ->
  main math_atan pow_two_frac a w
  = ({| stdout := (stdout w ++ "# CORDIC Arctan LUT" ++ nl ++ nl
                   ++ "# CORDIC Gain K = 1.000000000000" ++ nl)%string;
        rtl_dir := rtl_dir w; lookup_v := lookup_v w |}, Ok tt).
Proof.
  intros Hi Hv Hfmt.
  assert (Hgen : generate_cordic_lut math_atan pow_two_frac (niter a)
                 = Ok ([], f_one)).
  { unfold generate_cordic_lut.
    replace (Z.to_nat (niter a)) with 0%nat by lia. reflexivity. }
  unfold main, io_bind at 1, io_lift at 1. rewrite Hgen, Hv.
  change (format_12f f_one) with "1.000000000000"%string.
  destruct (arg_m a) as [m |] eqn:Em; [destruct (arg_n a) as [n |] eqn:En |].
  - destruct (Hfmt m n eq_refl eq_refl) as [Hmn Ht].
    rewrite format_qmn_unfold by assumption.
    unfold io_bind, print, io_lift, io_ret, enumerate. cbn [mapM bind map].
    cbn [List.length seq map combine io_for stdout rtl_dir lookup_v].
    unfold io_ret. cbn [stdout rtl_dir lookup_v].
    rewrite !append_assoc_string. reflexivity.
  - unfold io_bind, print, io_ret, enumerate.
    cbn [List.length seq map combine io_for stdout rtl_dir lookup_v].
    unfold io_ret. cbn [stdout rtl_dir lookup_v].
    rewrite !append_assoc_string. reflexivity.
  - unfold io_bind, print, io_ret, enumerate.
    cbn [List.length seq map combine io_for stdout rtl_dir lookup_v].
    unfold io_ret. cbn [stdout rtl_dir lookup_v].
    rewrite !append_assoc_string. reflexivity.
Qed.

Lemma main_no_turns_witness :
  main atan_sample pow_frac_sample (sample_args (-3) (Some 1) (Some 6) false)
    fresh_world
  = ({| stdout := (EmptyString ++ "# CORDIC Arctan LUT" ++ nl ++ nl
                   ++ "# CORDIC Gain K = 1.000000000000" ++ nl)%string;
        rtl_dir := true; lookup_v := None |}, Ok tt).
Proof.
  apply (main_no_turns atan_sample pow_frac_sample
           (sample_args (-3) (Some 1) (Some 6) false) fresh_world);
    [cbn; lia | reflexivity |].
  intros m n Hm Hn. injection Hm as <-. injection Hn as <-. lia.
Defined.
(** ** Angles below the resolution of the format *)

Lemma justify_zero (m n : Z) : justify m n 0 = 0.
Proof. unfold justify. rewrite Z.land_0_l. apply Z.shiftl_0_l. Qed.

(** X20. An angle of at most half a unit of the last fractional bit,
    [2^-(n+1)] in magnitude, is encoded as [0x00000000]; the tie at exactly
    half a unit goes to the even neighbour, which is zero. *)
Theorem format_qmn_rounds_to_zero (m n : Z) (a : float) :
  0 <= m -> 0 <= n -> 1 + m + n <= 32 ->
  double a -> is_finite a = true ->
  (Qabs (F2Q a * inject_Z (2 ^ n)) <= 1 # 2)%Q ->
  format_qmn [a] m n = Ok ["0x00000000"%string].
Proof.
  intros Hm Hn Ht Ha Hf Hq.
  apply Qabs_Qle_condition in Hq. destruct Hq as [Hlo Hhi].
  apply round_half_even_mono in Hlo. apply round_half_even_mono in Hhi.
  change (round_half_even (- (1 # 2))) with 0 in Hlo.
  change (round_half_even (1 # 2)) with 0 in Hhi.
  assert (Hr : round_half_even (F2Q a * inject_Z (2 ^ n)) = 0) by lia.
  assert (Hp : 0 < 2 ^ (m + n)) by (apply Z.pow_pos_nonneg; lia).
  assert (Hs : scalable n a = true).
  { apply (in_range_scalable m n a Hm Hn Ht Ha Hf). rewrite Hr. lia. }
  rewrite format_qmn_single by assumption.
  rewrite spec_word_justify, Hr, saturate_id, justify_zero by lia.
  reflexivity.
Qed.

Lemma format_qmn_rounds_to_zero_witness :
  format_qmn [S754_finite false 4503599627370496 (-59)] 1 6
  = Ok ["0x00000000"%string].
Proof.
  apply (format_qmn_rounds_to_zero 1 6 (S754_finite false 4503599627370496 (-59)));
    [lia | lia | lia | reflexivity | reflexivity | vm_compute; discriminate].
Defined.

(** The value of a positive double from a bound on its mantissa. *)
Lemma F2Q_pos_bound (m : positive) (e j k : Z) :
  Zpos m <= 2 ^ j -> 0 <= j -> e + j <= k ->
  (F2Q (S754_finite false m e) <= Qpower 2 k)%Q.
Proof.
  intros Hm Hj Hk. cbn [F2Q cond_Zopp].
  apply Qle_trans with (Qpower 2 j * Qpower 2 e)%Q.
  - apply Qmult_le_compat_r; [| apply Qlt_le_weak, Qpower_2_pos].
    rewrite Qpower_2_nonneg by assumption. rewrite <- Zle_Qle. exact Hm.
  - rewrite <- Qpower_plus by discriminate.
    apply Qpower_le_compat_l; [lia | discriminate].
Qed.

Lemma finite_le_exp2 (a : float) (k : Z) :
  k < 1024 ->
  SFleb (S754_zero false) a = true -> SFleb a (exp2 k) = true ->
  is_finite a = true.
Proof.
  intros Hk H0 Hle. destruct a as [s | s | | s m e]; try reflexivity.
  - exfalso. unfold exp2 in Hle.
    destruct (Z.leb_spec 1024 k); [lia |].
    destruct s; [discriminate H0 |].
    destruct (k <? -1074); [discriminate Hle |].
    destruct (k <? -1022); discriminate Hle.
  - discriminate H0.
Qed.

(** A double between 0.0 and the double nearest to [2 ^ k], in the order
    of doubles, has its value between 0 and [2 ^ k]. *)
Lemma F2Q_le_exp2 (a : float) (k : Z) :
  double a -> k < 1024 ->
  SFleb (S754_zero false) a = true -> SFleb a (exp2 k) = true ->
  (0 <= F2Q a <= Qpower 2 k)%Q.
Proof.
  intros Ha Hk H0 Hle.
  pose proof (finite_le_exp2 a k Hk H0 Hle) as Hf.
  destruct a as [s | s | | s m e]; try discriminate Hf.
  - split; [apply Qle_refl | apply Qlt_le_weak, Qpower_2_pos].
  - destruct s; [discriminate H0 |]. split.
    + cbn [F2Q cond_Zopp]. apply Qmult_le_0_compat;
        [rewrite <- (Zle_Qle 0); lia | apply Qlt_le_weak, Qpower_2_pos].
    + unfold double in Ha. cbn [valid_binary] in Ha.
      assert (Hb := Ha). unfold bounded, canonical_mantissa in Hb.
      apply andb_true_iff in Hb. destruct Hb as [Hc _]. apply Z.eqb_eq in Hc.
      unfold fexp, emin, prec, emax in Hc.
      pose proof (digits2_bounds m) as [_ Hd].
      assert (Hm53 : Zpos m <= 2 ^ 53).
      { assert (2 ^ Zpos (digits2_pos m) <= 2 ^ 53)
          by (apply Z.pow_le_mono_r; lia). lia. }
      unfold exp2 in Hle.
      destruct (Z.leb_spec 1024 k); [lia |].
      destruct (Z.ltb_spec k (-1074)); [discriminate Hle |].
      destruct (Z.ltb_spec k (-1022)).
      * apply SFleb_finite_pos in Hle. destruct Hle as [E | [E C]]; [lia |].
        rewrite Z2Pos.id in C by (apply Z.pow_pos_nonneg; lia).
        apply (F2Q_pos_bound m e (k + 1074) k); lia.
      * apply SFleb_finite_pos in Hle. destruct Hle as [E | [E C]].
        -- apply (F2Q_pos_bound m e 53 k); lia.
        -- apply (F2Q_pos_bound m e 52 k); [exact C | lia | lia].
Qed.

(** X21. The table runs out of bits: on a platform whose arctangent
    satisfies [0 <= atan x <= x] at the arguments of the table, every entry
    past index [n] of the encoded table is [0x00000000], in every format
    with [n] fractional bits. *)
Theorem generate_then_format_zero (math_atan pow_two_frac : float -> float)
  (n_iter m n : Z) :
  0 <= m -> 0 <= n -> 1 + m + n <= 32 -> n_iter <= int_overflow ->
  (forall i, 0 <= i < n_iter ->
     double (math_atan (exp2 (- i))) /\
     SFleb (S754_zero false) (math_atan (exp2 (- i))) = true /\
     SFleb (math_atan (exp2 (- i))) (exp2 (- i)) = true) ->
  exists angles K hs,
    generate_cordic_lut math_atan pow_two_frac n_iter = Ok (angles, K) /\
    format_qmn angles m n = Ok hs /\
    forall i, n < i < n_iter ->
      nth_error hs (Z.to_nat i) = Some "0x00000000"%string.
Proof.
  intros Hm Hn Ht Hhi Hatan.
  assert (Hval : forall i, 0 <= i < n_iter ->
            (0 <= F2Q (math_atan (exp2 (- i))) <= Qpower 2 (- i))%Q).
  { intros i Hi. destruct (Hatan i Hi) as [Hd [H0 Hle]].
    apply F2Q_le_exp2; (assumption || lia). }
  assert (Hfin : forall i, 0 <= i < n_iter ->
            is_finite (math_atan (exp2 (- i))) = true).
  { intros i Hi. destruct (Hatan i Hi) as [_ [H0 Hle]].
    apply (finite_le_exp2 _ (- i)); (assumption || lia). }
  assert (Hsc : forall i, 0 <= i < n_iter ->
            (0 <= F2Q (math_atan (exp2 (- i))) * inject_Z (2 ^ n)
             <= Qpower 2 (n - i))%Q).
  { intros i Hi. destruct (Hval i Hi) as [Hlo Hup].
    pose proof (inject_pow2_pos n Hn) as Hp. split.
    - apply Qmult_le_0_compat; [exact Hlo | apply Qlt_le_weak, Hp].
    - replace (n - i) with (- i + n) by lia.
      rewrite Qpower_plus, (Qpower_2_nonneg n Hn) by discriminate.
      apply Qmult_le_compat_r; [exact Hup | apply Qlt_le_weak, Hp]. }
  assert (Hscal : forall i, 0 <= i < n_iter ->
            scalable n (math_atan (exp2 (- i))) = true).
  { intros i Hi. destruct (Hatan i Hi) as [Hd [H0 Hle]].
    apply scalable_unit; [exact Hd | apply Hfin, Hi | | lia].
    apply SFle_trans with (exp2 (- i)).
    - destruct (math_atan (exp2 (- i))) as [s | [] | | [] mm e];
        try discriminate H0; exact Hle.
    - destruct (Z.lt_ge_cases i 1200) as [Hs | Hl].
      + apply (Z_range_check (fun j => SFleb (exp2 (- j)) f_one) 0 1200);
          [vm_compute; reflexivity | lia].
      + rewrite exp2_underflow by lia. reflexivity. }
  exists (angle_table math_atan n_iter), (gain n_iter),
    (map (fun a => hex_word (spec_word m n (F2Q a))) (angle_table math_atan n_iter)).
  split; [apply generate_cordic_lut_ok, Hhi |]. split.
  - rewrite format_qmn_unfold by lia.
    rewrite (mapM_ok _ (fun a => spec_word m n (F2Q a))).
    + cbn [bind]. rewrite map_map. reflexivity.
    + apply Forall_forall. intros a Ha. unfold angle_table in Ha.
      apply in_map_iff in Ha. destruct Ha as [i [<- Hi]].
      apply Z_range_bounds in Hi.
      destruct (Hatan i ltac:(lia)) as [Hd _].
      apply encode_word_spec; try assumption. apply Hscal. lia.
  - intros i Hi. rewrite nth_error_map.
    replace i with (Z.of_nat (Z.to_nat i)) in Hi by lia.
    rewrite angle_table_nth by lia. cbn [option_map]. f_equal.
    rewrite Z2Nat.id by lia.
    destruct (Hsc (Z.of_nat (Z.to_nat i)) ltac:(lia)) as [Hlo Hup].
    rewrite Z2Nat.id in Hlo, Hup by lia.
    assert (Hhalf : (Qpower 2 (n - Z.of_nat (Z.to_nat i)) <= 1 # 2)%Q).
    { change (1 # 2)%Q with (Qpower 2 (-1)).
      apply Qpower_le_compat_l; [lia | discriminate]. }
    rewrite Z2Nat.id in Hhalf by lia.
    assert (Hr : round_half_even
                   (F2Q (math_atan (exp2 (- i))) * inject_Z (2 ^ n)) = 0).
    { apply round_half_even_mono in Hlo.
      assert (Hup' := Qle_trans _ _ _ Hup Hhalf).
      apply round_half_even_mono in Hup'.
      change (round_half_even 0) with 0 in Hlo.
      change (round_half_even (1 # 2)) with 0 in Hup'. lia. }
    rewrite spec_word_justify, Hr.
    assert (Hp : 0 < 2 ^ (m + n)) by (apply Z.pow_pos_nonneg; lia).
    rewrite saturate_id, justify_zero by lia. reflexivity.
Qed.

Lemma generate_then_format_zero_witness :
  exists angles K hs,
    generate_cordic_lut atan_sample pow_frac_sample 16 = Ok (angles, K) /\
    format_qmn angles 1 6 = Ok hs /\
    forall i, 6 < i < 16 ->
      nth_error hs (Z.to_nat i) = Some "0x00000000"%string.
Proof.
  apply (generate_then_format_zero atan_sample pow_frac_sample 16 1 6);
    [lia | lia | lia | unfold int_overflow; lia |].
  intros i Hi.
  pose (P := fun i =>
          valid_binary prec emax (atan_sample (exp2 (- i)))
          && SFleb (S754_zero false) (atan_sample (exp2 (- i)))
          && SFleb (atan_sample (exp2 (- i))) (exp2 (- i))).
  assert (H : P i = true)
    by (apply (Z_range_check P 0 16); [vm_compute; reflexivity | lia]).
  unfold P in H. apply andb_true_iff in H. destruct H as [H H3].
  apply andb_true_iff in H. destruct H as [H1 H2].
  split; [exact H1 | split; [exact H2 | exact H3]].
Defined.
